(** * resources/generate/main.ts: the README generator

    A shallow embedding of the script that merges the ports and userstyles
    catalogues, groups the merged entries by primary category, renders the
    port list and the showcase list, and splices both into the README.

    The embedding starts at line 40 of the script, once [validateYaml] has
    returned the three parsed documents.  Two collaborators are not part of
    the script and are taken as parameters of the development:
    [String.prototype.localeCompare] and [updateReadme]. *)

From Stdlib Require Import String Ascii List ZArith NArith Bool Lia.
From Stdlib Require Import Sorting.Sorted Sorting.Permutation.
Import ListNotations.
Local Open Scope list_scope.
Local Open Scope string_scope.

(** ** JavaScript values used by the script *)

(** Payload of the properties the script never inspects. *)
#[local] Unset Elimination Schemes.
Inductive json : Type :=
| JNull
| JBool (b : bool)
| JNum (z : Z)
| JStr (s : string)
| JArr (items : list json)
| JObj (props : list (string * json)).
#[local] Set Elimination Schemes.

(** A string is truthy unless it is empty; [undefined] is falsy. *)
Definition truthy (v : option string) : bool :=
  match v with
  | Some s => negb (s =? "")
  | None => false
  end.

(** [${v}] inside a template literal. *)
Definition template (v : option string) : string :=
  match v with
  | Some s => s
  | None => "undefined"
  end.

(** [a ?? b] *)
Definition nullish {A : Type} (a : option A) (b : A) : A :=
  match a with
  | Some x => x
  | None => b
  end.

Definition nl : string := String (ascii_of_nat 10) "".

(** [xs.join(sep)] on an array of strings. *)
Fixpoint join (sep : string) (xs : list string) : string :=
  match xs with
  | [] => ""
  | [x] => x
  | x :: rest => x ++ sep ++ join sep rest
  end.

(** ** Plain objects used as dictionaries

    An object is represented by its own properties in the order in which
    [Object.entries] enumerates them: array-index keys in ascending numeric
    order first, then the other keys in insertion order.  Keys are assumed
    not to shadow members of [Object.prototype]. *)

Definition obj (V : Type) : Type := list (string * V).

Definition digit (c : ascii) : option N :=
  let n := N_of_ascii c in
  if ((48 <=? n) && (n <=? 57))%N then Some (n - 48)%N else None.

Fixpoint digits (s : string) (acc : N) : option N :=
  match s with
  | EmptyString => Some acc
  | String c s' =>
      match digit c with
      | Some d => digits s' (10 * acc + d)%N
      | None => None
      end
  end.

(** A key is an array index when it is the canonical decimal form of an
    integer between 0 and 2^32 - 2. *)
Definition array_index (k : string) : option N :=
  match k with
  | EmptyString => None
  | String c rest =>
      if (c =? "0")%char then
        match rest with
        | EmptyString => Some 0%N
        | _ => None
        end
      else
        match digits k 0 with
        | Some n => if (n <? 4294967295)%N then Some n else None
        | None => None
        end
  end.

(** [o[k]] *)
Fixpoint obj_get {V : Type} (o : obj V) (k : string) : option V :=
  match o with
  | [] => None
  | (k', v) :: o' => if k' =? k then Some v else obj_get o' k
  end.

Fixpoint set_named {V : Type} (o : obj V) (k : string) (v : V) : obj V :=
  match o with
  | [] => [(k, v)]
  | (k', v') :: o' =>
      if k' =? k then (k, v) :: o' else (k', v') :: set_named o' k v
  end.

Fixpoint set_index {V : Type} (o : obj V) (k : string) (n : N) (v : V)
  : obj V :=
  match o with
  | [] => [(k, v)]
  | (k', v') :: o' =>
      if k' =? k then (k, v) :: o'
      else
        match array_index k' with
        | Some n' =>
            if (n <? n')%N then (k, v) :: (k', v') :: o'
            else (k', v') :: set_index o' k n v
        | None => (k, v) :: (k', v') :: o'
        end
  end.

(** [o[k] = v]: an existing key keeps its place, a new one is enumerated
    where its kind puts it. *)
Definition obj_set {V : Type} (o : obj V) (k : string) (v : V) : obj V :=
  match array_index k with
  | Some n => set_index o k n v
  | None => set_named o k v
  end.

Definition Object_entries {V : Type} (o : obj V) : list (string * V) := o.
Definition Object_keys {V : Type} (o : obj V) : list string := map fst o.
Definition Object_values {V : Type} (o : obj V) : list V := map snd o.

(** [{ ...a, ...b }] *)
Definition spread_into {V : Type} (acc : obj V) (o : obj V) : obj V :=
  fold_left (fun acc kv => obj_set acc (fst kv) (snd kv))
            (Object_entries o) acc.

Definition spread2 {V : Type} (a b : obj V) : obj V :=
  spread_into (spread_into [] a) b.

(** [xs.includes(x)] on an array of strings; [undefined] is no element
    of such an array. *)
Definition includes (xs : list string) (x : option string) : bool :=
  match x with
  | Some s => existsb (String.eqb s) xs
  | None => false
  end.

(** Enumeration order of two keys of one object: different keys, an
    array index never after a name, indices ascending. *)
Definition key_before (a b : string) : Prop :=
  a <> b /\
  match array_index a, array_index b with
  | Some n, Some m => (n <= m)%N
  | Some _, None => True
  | None, Some _ => False
  | None, None => True
  end.

(** The shape of every object: distinct keys in enumeration order. *)
Definition obj_ok {V : Type} (o : obj V) : Prop :=
  StronglySorted key_before (Object_keys o).

(** ** The data model *)

(** Modelled from the spec: the schema types of [@/types/mod.ts] and of the
    userstyles schema are not among the sources.  An entry of [supports] is
    a record with at least a [name]. *)
Module Support.
Record t : Type := mk { name : string; rest : obj json }.
End Support.

(** Modelled from the spec: [PortsSchema.Port].  [rest] holds the
    properties the script never names. *)
Module Port.
Record t : Type := mk {
  name : string;
  categories : list string;
  url : option string;
  alias : option string;
  supports : option (obj Support.t);
  platform : option json;
  readme : option json;
  rest : obj json
}.
End Port.

(** Modelled from the spec: [UserStylesSchema.Userstyle], a port without
    the [alias] property. *)
Module Userstyle.
Record t : Type := mk {
  name : string;
  categories : list string;
  url : option string;
  supports : option (obj Support.t);
  platform : option json;
  readme : option json;
  rest : obj json
}.
End Userstyle.

(** Modelled from the spec: [CategoriesSchema.CategoryDefinitions] is an
    array of these. *)
Module Category.
Record t : Type := mk { key : string; name : string; emoji : string }.
End Category.

(** Modelled from the spec: an element of [portsData.showcases]. *)
Module Showcase.
Record t : Type := mk {
  title : string;
  link : string;
  description : string
}.
End Showcase.

(** Modelled from the spec: the document of [ports.yml], of which the
    script reads [ports] and [showcases]; both may be missing. *)
Module PortsSchema.
Record t : Type := mk {
  ports : option (obj Port.t);
  showcases : option (list Showcase.t)
}.
End PortsSchema.

(** Modelled from the spec: the document of [userstyles.yml], of which
    the script reads [userstyles]. *)
Module UserstylesSchema.
Record t : Type := mk { userstyles : option (obj Userstyle.t) }.
End UserstylesSchema.

Inductive PortType : Type := type_port | type_userstyle.

(** [MappedPort]: the properties of a port or of a userstyle, and the
    [type] tag.  The objects pushed to a bucket are built by spreading a
    [MappedPort], so they have the same properties. *)
Record MappedPort : Type := mkMappedPort {
  name : string;
  categories : list string;
  url : option string;
  alias : option string;
  supports : option (obj Support.t);
  platform : option json;
  readme : option json;
  rest : obj json;
  type : PortType
}.

(** [{ ...port, type: "port" }] *)
Definition tag_port (p : Port.t) : MappedPort :=
  {| name := Port.name p;
     categories := Port.categories p;
     url := Port.url p;
     alias := Port.alias p;
     supports := Port.supports p;
     platform := Port.platform p;
     readme := Port.readme p;
     rest := Port.rest p;
     type := type_port |}.

(** [{ ...userstyle, type: "userstyle" }] *)
Definition tag_userstyle (u : Userstyle.t) : MappedPort :=
  {| name := Userstyle.name u;
     categories := Userstyle.categories u;
     url := Userstyle.url u;
     alias := None;
     supports := Userstyle.supports u;
     platform := Userstyle.platform u;
     readme := Userstyle.readme u;
     rest := Userstyle.rest u;
     type := type_userstyle |}.

(** ** Lines 51-70: the merged catalogue *)

(** [Object.entries(o).reduce((acc, [slug, x]) => { acc[slug] = f(x);
    return acc; }, {})] *)
Definition label {A : Type} (f : A -> MappedPort) (o : obj A)
  : obj MappedPort :=
  fold_left (fun acc kv => obj_set acc (fst kv) (f (snd kv)))
            (Object_entries o) [].

Definition ports (portsData_ports : obj Port.t)
                 (userstylesData_userstyles : obj Userstyle.t)
  : obj MappedPort :=
  spread2 (label tag_port portsData_ports)
          (label tag_userstyle userstylesData_userstyles).

Definition portSlugs (ports : obj MappedPort) : list string :=
  map fst (Object_entries ports).

(** ** Lines 72-120: grouping by primary category *)

(** The value of a [throw new Error(message)]. *)
Inductive exn : Type := Error (message : string).

(** [{ ...port, url }]: the spread copies every property of [port].  The
    [Omit] of line 119 is the static type of the accumulator; it removes
    nothing from the objects. *)
Definition with_url (p : MappedPort) (u : option string) : MappedPort :=
  {| name := name p;
     categories := categories p;
     url := u;
     alias := alias p;
     supports := supports p;
     platform := platform p;
     readme := readme p;
     rest := rest p;
     type := type p |}.

(** [{ ...port, url, name }] *)
Definition with_url_name (p : MappedPort) (u : option string) (n : string)
  : MappedPort :=
  {| name := n;
     categories := categories p;
     url := u;
     alias := alias p;
     supports := supports p;
     platform := platform p;
     readme := readme p;
     rest := rest p;
     type := type p |}.

(** [port.categories[0]] used as a property key: [undefined] becomes the
    key ["undefined"]. *)
Definition primary_key (p : MappedPort) : string :=
  template (nth_error (categories p) 0).

(** Lines 85-99. *)
Definition resolve_url (slug : string) (p : MappedPort) : option string :=
  let url := url p in
  if negb (truthy url) then
    match type p with
    | type_port =>
        let repo := nullish (alias p) slug in
        Some ("https://github.com/catppuccin/" ++ repo)
    | type_userstyle =>
        Some ("https://github.com/catppuccin/userstyles/tree/main/styles/"
                ++ slug)
    end
  else url.

(** The arguments of [push] on lines 101-113. *)
Definition pushed (p : MappedPort) (u : option string) : list MappedPort :=
  with_url p u
    :: map (fun s => with_url_name p u (Support.name s))
           (Object_values (nullish (supports p) [])).

Definition alias_error (slug : string) (p : MappedPort) : exn :=
  Error ("port `" ++ slug ++ "` points to an alias `"
           ++ template (alias p) ++ "` that doesn't exist").

(** [reduce] with a callback that may throw. *)
Fixpoint reduce {A B : Type} (f : B -> A -> exn + B) (l : list A) (acc : B)
  : exn + B :=
  match l with
  | [] => inr acc
  | x :: l' =>
      match f acc x with
      | inl e => inl e
      | inr acc' => reduce f l' acc'
      end
  end.

(** ** Effects of the script

    What a run does to the outside: it reads the README, calls
    [updateReadme], logs, and writes the README.  [README] is the file on
    disk ([None] when it cannot be read) and [readmeContent] the script's
    variable of that name. *)

Inductive event : Type :=
| ReadReadme
| UpdateReadme (section : string)
| ConsoleLog (message : string) (e : exn)
| WriteReadme (content : string).

Record state : Type := mkState {
  README : option string;
  readmeContent : string;
  trace : list event
}.

Definition M (A : Type) : Type := state -> (exn + A) * state.

Definition ret {A : Type} (a : A) : M A := fun s => (inr a, s).

Definition throw {A : Type} (e : exn) : M A := fun s => (inl e, s).

Definition bind {A B : Type} (c : M A) (k : A -> M B) : M B :=
  fun s =>
    match c s with
    | (inr a, s') => k a s'
    | (inl e, s') => (inl e, s')
    end.

Notation "x <- c ;; k" := (bind c (fun x => k))
  (at level 61, c at next level, right associativity).
Notation "c ;; k" := (bind c (fun _ => k))
  (at level 61, right associativity).

Definition lift {A : Type} (r : exn + A) : M A :=
  match r with
  | inl e => throw e
  | inr a => ret a
  end.

Definition emit (e : event) : M unit :=
  fun s => (inr tt, mkState (README s) (readmeContent s) (trace s ++ [e])).

Definition get_readmeContent : M string :=
  fun s => (inr (readmeContent s), s).

Definition set_readmeContent (v : string) : M unit :=
  fun s => (inr tt, mkState (README s) v (trace s)).

(** [await Deno.readTextFile(readmePath)] *)
Definition readTextFile : M string :=
  emit ReadReadme ;;
  fun s =>
    match README s with
    | Some text => (inr text, s)
    | None => (inl (Error "NotFound"), s)
    end.

(** [await Deno.writeTextFile(readmePath, content)] *)
Definition writeTextFile (content : string) : M unit :=
  emit (WriteReadme content) ;;
  fun s => (inr tt, mkState (Some content) (readmeContent s) (trace s)).

(** [console.log(message, e)] *)
Definition console_log (message : string) (e : exn) : M unit :=
  emit (ConsoleLog message e).

(** [try { body } catch (e) { handler(e) } finally { fin }] *)
Definition try_catch_finally (body : M unit) (handler : exn -> M unit)
           (fin : M unit) : M unit :=
  fun s =>
    let after :=
      match body s with
      | (inl e, s1) => handler e s1
      | r => r
      end in
    match fin (snd after) with
    | (inr _, s3) => (fst after, s3)
    | r => r
    end.

Definition run {A : Type} (c : M A) (file : option string)
  : (exn + A) * state :=
  c (mkState file "" []).

Section Generate.

(** [a.localeCompare(b)]: negative, zero or positive. *)
Variable localeCompare : string -> string -> Z.

(** [updateReadme(readme, content, { section })] returns the new
    document or throws. *)
Variable updateReadme : string -> string -> string -> exn + string.

(** [xs.sort(cmp)].  The sort is stable, and with a consistent comparator
    every stable sort returns the same array; this one inserts from the
    right. *)
Fixpoint sort_insert {A : Type} (cmp : A -> A -> Z) (x : A) (l : list A)
  : list A :=
  match l with
  | [] => [x]
  | y :: l' =>
      if (cmp x y <=? 0)%Z then x :: y :: l'
      else y :: sort_insert cmp x l'
  end.

Definition Array_sort {A : Type} (cmp : A -> A -> Z) (l : list A)
  : list A :=
  fold_right (sort_insert cmp) [] l.

Definition by_name (a b : MappedPort) : Z :=
  localeCompare (name a) (name b).

(** The callback of the [reduce] on lines 74-118.  The bucket is an array
    owned by the accumulator alone, so [push] and [sort] on it are
    updates of the accumulator at the bucket's key. *)
Definition categorize (portSlugs : list string)
           (acc : obj (list MappedPort)) (slug : string) (p : MappedPort)
  : exn + obj (list MappedPort) :=
  let k := primary_key p in
  let acc :=
    match obj_get acc k with
    | Some _ => acc
    | None => obj_set acc k []
    end in
  if truthy (alias p) && negb (includes portSlugs (alias p)) then
    inl (alias_error slug p)
  else
    let url := resolve_url slug p in
    let acc :=
      obj_set acc k (nullish (obj_get acc k) [] ++ pushed p url)%list in
    let acc :=
      obj_set acc k (Array_sort by_name (nullish (obj_get acc k) [])) in
    inr acc.

Definition categorized (ports : obj MappedPort)
  : exn + obj (list MappedPort) :=
  reduce (fun acc kv => categorize (portSlugs ports) acc (fst kv) (snd kv))
         (Object_entries ports) [].

(** ** Lines 122-148: rendering *)

Definition portListData (categoriesData : list Category.t)
           (categorized : obj (list MappedPort))
  : list (Category.t * list MappedPort) :=
  map (fun category =>
         (category, nullish (obj_get categorized (Category.key category)) []))
      categoriesData.

Definition port_item (p : MappedPort) : string :=
  "- [" ++ name p ++ "](" ++ template (url p) ++ ")".

Definition details (data : Category.t * list MappedPort) : string :=
  "<details open>" ++ nl
    ++ "<summary>" ++ Category.emoji (fst data) ++ " "
    ++ Category.name (fst data) ++ "</summary>" ++ nl
    ++ nl
    ++ join nl (map port_item (snd data)) ++ nl
    ++ nl
    ++ "</details>".

Definition portContent (portListData : list (Category.t * list MappedPort))
  : string :=
  join nl
    (map details
       (filter (fun data => negb (length (snd data) =? 0)%nat)
               portListData)).

Definition showcase_item (showcase : Showcase.t) : string :=
  "- [" ++ Showcase.title showcase ++ "](" ++ Showcase.link showcase
    ++ ") - " ++ Showcase.description showcase.

(** [portsData.showcases?.map(...).join("\n")] *)
Definition showcaseContent (showcases : option (list Showcase.t))
  : option string :=
  match showcases with
  | Some l => Some (join nl (map showcase_item l))
  | None => None
  end.

(** ** Lines 40-42 and 129-163: the run

    An object or an array is truthy whatever it holds, so the test of
    line 40 asks whether one of the three collections is [undefined] or
    [null], here [None].  The grouping of lines 72-120 comes before the
    README is read on line 130. *)

Definition call_updateReadme (readme content section : string)
  : M string :=
  emit (UpdateReadme section) ;;
  lift (updateReadme readme content section).

Definition main (portsData : PortsSchema.t)
           (categoriesData : option (list Category.t))
           (userstylesData : UserstylesSchema.t) : M unit :=
  match PortsSchema.ports portsData, categoriesData,
        UserstylesSchema.userstyles userstylesData with
  | Some portsData_ports, Some categoriesData, Some userstyles =>
      let ports := ports portsData_ports userstyles in
      categorized <- lift (categorized ports) ;;
      let portListData := portListData categoriesData categorized in
      text <- readTextFile ;;
      set_readmeContent text ;;
      let portContent := portContent portListData in
      let showcaseContent :=
        showcaseContent (PortsSchema.showcases portsData) in
      try_catch_finally
        (r <- get_readmeContent ;;
         r' <- call_updateReadme r portContent "portlist" ;;
         set_readmeContent r' ;;
         if truthy showcaseContent then
           r <- get_readmeContent ;;
           r' <- call_updateReadme r (template showcaseContent)
                                   "showcase" ;;
           set_readmeContent r'
         else ret tt)
        (fun e => console_log "Failed to update the README:" e)
        (r <- get_readmeContent ;; writeTextFile r)
  | _, _, _ => throw (Error "ports.yml is empty")
  end.

End Generate.

(** ** Vocabulary of the properties *)

(** An array in non-decreasing order under a comparator. *)
Definition ordered {A : Type} (cmp : A -> A -> Z) (l : list A) : Prop :=
  StronglySorted (fun a b => (cmp a b <= 0)%Z) l.

(** The test of line 79. *)
Definition dangling_alias (portSlugs : list string) (p : MappedPort) : bool :=
  truthy (alias p) && negb (includes portSlugs (alias p)).

(** The rows the entries of one primary category contribute, in the order
    of the entries: each entry its own row and then one row per value of
    its [supports]. *)
Definition rows_for (k : string) (entries : list (string * MappedPort))
  : list MappedPort :=
  flat_map (fun kv => pushed (snd kv) (resolve_url (fst kv) (snd kv)))
           (filter (fun kv => primary_key (snd kv) =? k) entries).

(** The port list in the words of the specification: a collapsible block
    with a title and a body, one per category with a non-empty bucket, in
    the declared order of the categories. *)
Definition collapsible (title body : string) : string :=
  "<details open>" ++ nl ++ "<summary>" ++ title ++ "</summary>" ++ nl
    ++ nl ++ body ++ nl ++ nl ++ "</details>".

Definition link_item (row : MappedPort) : string :=
  "- [" ++ name row ++ "](" ++ template (url row) ++ ")".

Fixpoint port_list_blocks (categoriesData : list Category.t)
         (categorized : obj (list MappedPort)) : list string :=
  match categoriesData with
  | [] => []
  | category :: others =>
      match obj_get categorized (Category.key category) with
      | Some (row :: rows) =>
          collapsible
            (Category.emoji category ++ " " ++ Category.name category)
            (join nl (map link_item (row :: rows)))
            :: port_list_blocks others categorized
      | Some [] | None => port_list_blocks others categorized
      end
  end.

(** The document the [finally] block writes when the README read [r]. *)
Definition spliced (updateReadme : string -> string -> string -> exn + string)
           (r portContent : string) (showcaseContent : option string)
  : string :=
  match updateReadme r portContent "portlist" with
  | inl _ => r
  | inr r1 =>
      if truthy showcaseContent then
        match updateReadme r1 (template showcaseContent) "showcase" with
        | inl _ => r1
        | inr r2 => r2
        end
      else r1
  end.

(** ** A comparator to run the model with *)

(** Ordinal comparison of the code units: a consistent comparator, as
    [localeCompare] is. *)
Fixpoint compare_code_units (a b : string) : Z :=
  match a, b with
  | EmptyString, EmptyString => 0
  | EmptyString, String _ _ => -1
  | String _ _, EmptyString => 1
  | String x a', String y b' =>
      let d := (Z.of_N (N_of_ascii x) - Z.of_N (N_of_ascii y))%Z in
      if (d =? 0)%Z then compare_code_units a' b' else d
  end.

(** An [updateReadme] to run the model with: it knows the two sections
    of the script, appends the content as a new line, and throws on any
    other section. *)
Definition updateReadme_lines (readme content section : string)
  : exn + string :=
  if section =? "portlist" then inr (readme ++ nl ++ content)
  else if section =? "showcase" then inr (readme ++ nl ++ content)
  else inl (Error ("section not found: " ++ section)).

(** Inputs to run the model on.  The first is the example of the
    specification: two ports in one category. *)
Module Example.

Definition p1 : Port.t :=
  Port.mk "Zeta" ["a"] None None None None None [].

Definition p2 : Port.t :=
  Port.mk "Beta" ["a"] (Some "https://x") None None None None [].

Definition portsData : PortsSchema.t :=
  PortsSchema.mk (Some [("p1", p1); ("p2", p2)]) None.

Definition categoriesData : option (list Category.t) :=
  Some [Category.mk "a" "Alpha" "^"].

Definition userstylesData : UserstylesSchema.t :=
  UserstylesSchema.mk (Some []).

(** A port with two supported variants, a platform and a readme. *)
Definition p3 : Port.t :=
  Port.mk "Mail" ["a"] None None
          (Some [("web", Support.mk "Mail Web" []);
                 ("app", Support.mk "Mail App" [])])
          (Some (JArr [JStr "linux"]))
          (Some (JObj [("usage", JStr "install")]))
          [("color", JStr "mauve")].

(** A port whose alias names no slug. *)
Definition p4 : Port.t :=
  Port.mk "Gone" ["a"] None (Some "missing-slug") None None None [].

(** A port whose alias is the empty string. *)
Definition p5 : Port.t :=
  Port.mk "Blank" ["a"] None (Some "") None None None [].

(** A port whose url is the empty string. *)
Definition p6 : Port.t :=
  Port.mk "Bare" ["a"] (Some "") None None None None [].

(** A userstyle with the slug of [p2]. *)
Definition u2 : Userstyle.t :=
  Userstyle.mk "Beta Web" ["a"] None None None None [].

Definition showcase1 : Showcase.t :=
  Showcase.mk "Site" "https://s" "a site".

(** An [updateReadme] that finds no section. *)
Definition updateReadme_fails (readme content section : string)
  : exn + string :=
  inl (Error ("section not found: " ++ section)).

End Example.

(** ** Vocabulary of the further properties *)

(** What the renderer reads of a row: line 138 uses [name] and [url]. *)
Definition view (row : MappedPort) : string * option string :=
  (name row, url row).

(** What the grouping and the rendering read of an entry: its name, url,
    alias and type, its first category, and the names of the values of
    its [supports]. *)
Definition same_listing (p q : MappedPort) : Prop :=
  name p = name q /\ url p = url q /\ alias p = alias q /\
  type p = type q /\ primary_key p = primary_key q /\
  map Support.name (Object_values (nullish (supports p) []))
  = map Support.name (Object_values (nullish (supports q) [])).

(** Two catalogues with the same slugs in the same order whose entries
    are read alike. *)
Definition same_listings (E E' : obj MappedPort) : Prop :=
  Forall2 (fun kv kv' => fst kv = fst kv' /\ same_listing (snd kv) (snd kv'))
          E E'.

(** The number of rows an entry contributes. *)
Definition row_count (p : MappedPort) : nat :=
  S (length (Object_values (nullish (supports p) []))).

(** Further inputs to run the model on. *)
Module Sample.

(** A port filed under no category. *)
Definition stray : Port.t :=
  Port.mk "Stray" [] None None None None None [].

(** A port whose alias is the slug of a userstyle. *)
Definition mirror : Port.t :=
  Port.mk "Mirror" ["a"] None (Some "web") None None None [].

Definition web : Userstyle.t :=
  Userstyle.mk "Web" ["a"; "b"] None None None None [].

(** [web] with other categories after the first, a readme and a
    platform. *)
Definition web' : Userstyle.t :=
  Userstyle.mk "Web" ["a"; "c"] None None
               (Some (JStr "browser")) (Some (JStr "notes"))
               [("color", JStr "blue")].

End Sample.

(** * Properties *)

(** ** Objects *)

Section ObjectFacts.

Context {V : Type}.
Implicit Types (o : obj V) (k : string) (v : V).

Lemma obj_get_set_named o k v k' :
  obj_get (set_named o k v) k' = if k =? k' then Some v else obj_get o k'.
Proof.
  induction o as [|[k0 v0] o IH]; simpl.
  - reflexivity.
  - destruct (k0 =? k) eqn:E0; simpl.
    + apply String.eqb_eq in E0; subst k0.
      destruct (k =? k'); reflexivity.
    + rewrite IH. destruct (k0 =? k') eqn:E1; [|reflexivity].
      apply String.eqb_eq in E1; subst k0.
      rewrite String.eqb_sym, E0. reflexivity.
Qed.

Lemma obj_get_set_index o k n v k' :
  obj_get (set_index o k n v) k' = if k =? k' then Some v else obj_get o k'.
Proof.
  induction o as [|[k0 v0] o IH]; simpl.
  - reflexivity.
  - destruct (k0 =? k) eqn:E0; simpl.
    + apply String.eqb_eq in E0; subst k0.
      destruct (k =? k'); reflexivity.
    + destruct (array_index k0) as [n0|]; [destruct (n <? n0)%N|]; simpl;
        try reflexivity.
      rewrite IH. destruct (k0 =? k') eqn:E1; [|reflexivity].
      apply String.eqb_eq in E1; subst k0.
      rewrite String.eqb_sym, E0. reflexivity.
Qed.

Lemma obj_get_set o k v k' :
  obj_get (obj_set o k v) k' = if k =? k' then Some v else obj_get o k'.
Proof.
  unfold obj_set. destruct (array_index k).
  - apply obj_get_set_index.
  - apply obj_get_set_named.
Qed.

Lemma obj_get_set_same o k v : obj_get (obj_set o k v) k = Some v.
Proof. rewrite obj_get_set, String.eqb_refl. reflexivity. Qed.

Lemma obj_get_set_other o k v k' :
  k <> k' -> obj_get (obj_set o k v) k' = obj_get o k'.
Proof.
  intros H. rewrite obj_get_set.
  destruct (k =? k') eqn:E; [|reflexivity].
  apply String.eqb_eq in E. contradiction.
Qed.

Lemma obj_get_In o k v : obj_get o k = Some v -> In (k, v) o.
Proof.
  induction o as [|[k0 v0] o IH]; simpl; [discriminate|].
  destruct (k0 =? k) eqn:E.
  - apply String.eqb_eq in E. intros [= ->]. subst. now left.
  - intros H. right. auto.
Qed.

Lemma obj_get_None o k : obj_get o k = None <-> ~ In k (Object_keys o).
Proof.
  induction o as [|[k0 v0] o IH]; simpl.
  - tauto.
  - destruct (k0 =? k) eqn:E.
    + apply String.eqb_eq in E. split; [discriminate|]. intros H.
      exfalso. apply H. now left.
    + apply String.eqb_neq in E. rewrite IH. tauto.
Qed.

Lemma key_before_neq a b : key_before a b -> a <> b.
Proof. intros [H _]. exact H. Qed.

Lemma obj_ok_NoDup o : obj_ok o -> NoDup (Object_keys o).
Proof.
  unfold obj_ok. induction 1 as [|a l Hl IH Ha]; constructor; auto.
  intros Hin. rewrite Forall_forall in Ha.
  exact (key_before_neq _ _ (Ha _ Hin) eq_refl).
Qed.

Lemma In_obj_get_NoDup o k v :
  NoDup (Object_keys o) -> In (k, v) o -> obj_get o k = Some v.
Proof.
  unfold Object_keys.
  induction o as [|[k0 v0] o IH]; simpl; [tauto|]. intros Hnd.
  inversion Hnd as [|? ? Hnin Hnd']; subst.
  intros [[= -> ->]|Hin].
  - rewrite String.eqb_refl. reflexivity.
  - destruct (k0 =? k) eqn:E; [|auto].
    apply String.eqb_eq in E; subst k0. exfalso. apply Hnin.
    change k with (fst (k, v)). now apply in_map.
Qed.

Lemma In_obj_get o k v : obj_ok o -> In (k, v) o -> obj_get o k = Some v.
Proof. intros Hok. apply In_obj_get_NoDup, obj_ok_NoDup, Hok. Qed.

Lemma obj_get_rev o k :
  NoDup (Object_keys o) -> obj_get (rev o) k = obj_get o k.
Proof.
  intros Hnd. destruct (obj_get o k) as [v|] eqn:E.
  - apply In_obj_get_NoDup.
    + unfold Object_keys. rewrite map_rev. now apply NoDup_rev.
    + apply in_rev. rewrite rev_involutive. now apply obj_get_In.
  - apply obj_get_None. apply obj_get_None in E. intros Hin. apply E.
    unfold Object_keys in *. rewrite map_rev in Hin. now apply in_rev.
Qed.

Lemma obj_get_app o1 o2 k :
  obj_get (o1 ++ o2)%list k
  = match obj_get o1 k with
    | Some v => Some v
    | None => obj_get o2 k
    end.
Proof.
  induction o1 as [|[k0 v0] o1 IH]; simpl; [reflexivity|].
  destruct (k0 =? k); [reflexivity|exact IH].
Qed.

(** Keys after an assignment: the old ones, and the assigned one. *)
Lemma keys_set_named o k v x :
  In x (Object_keys (set_named o k v)) <-> x = k \/ In x (Object_keys o).
Proof.
  induction o as [|[k0 v0] o IH]; simpl.
  - intuition.
  - destruct (k0 =? k) eqn:E; simpl.
    + apply String.eqb_eq in E; subst k0. intuition.
    + rewrite IH. intuition.
Qed.

Lemma keys_set_index o k n v x :
  In x (Object_keys (set_index o k n v)) <-> x = k \/ In x (Object_keys o).
Proof.
  induction o as [|[k0 v0] o IH]; simpl.
  - intuition.
  - destruct (k0 =? k) eqn:E; simpl.
    + apply String.eqb_eq in E; subst k0. intuition.
    + destruct (array_index k0) as [n0|]; [destruct (n <? n0)%N|]; simpl;
        try rewrite IH; intuition.
Qed.

Lemma obj_ok_set_named o k v :
  array_index k = None -> obj_ok o -> obj_ok (set_named o k v).
Proof.
  intros Hk. unfold obj_ok.
  induction o as [|[k0 v0] o IH]; simpl; intros Hok.
  - repeat constructor.
  - inversion Hok as [|? ? Hs Hall]; subst.
    destruct (k0 =? k) eqn:E; simpl.
    + apply String.eqb_eq in E; subst k0. constructor; assumption.
    + apply String.eqb_neq in E. constructor; [auto|].
      rewrite Forall_forall in *. intros x Hx.
      apply keys_set_named in Hx. destruct Hx as [->|Hx]; [|auto].
      split; [assumption|]. rewrite Hk.
      destruct (array_index k0); exact I.
Qed.

Lemma obj_ok_set_index o k n v :
  array_index k = Some n -> obj_ok o -> obj_ok (set_index o k n v).
Proof.
  intros Hk. unfold obj_ok.
  induction o as [|[k0 v0] o IH]; simpl; intros Hok.
  - repeat constructor.
  - inversion Hok as [|? ? Hs Hall]; subst.
    destruct (k0 =? k) eqn:E; simpl.
    + apply String.eqb_eq in E; subst k0. constructor; assumption.
    + apply String.eqb_neq in E.
      assert (Hfresh : forall m, array_index k0 = Some m ->
                                 (n <? m)%N = true ->
                Forall (key_before k) (k0 :: Object_keys o)).
      { intros m Hm Hlt. apply N.ltb_lt in Hlt. constructor.
        - split; [congruence|]. rewrite Hk, Hm. lia.
        - rewrite Forall_forall in *. intros x Hx.
          destruct (Hall x Hx) as [Hne Hord]. rewrite Hm in Hord.
          split.
          + intros ->. rewrite Hk in Hord. lia.
          + rewrite Hk. destruct (array_index x); [lia|exact I]. }
      destruct (array_index k0) as [n0|] eqn:E0.
      * destruct (n <? n0)%N eqn:Elt; simpl.
        -- constructor; [exact Hok|]. now apply (Hfresh n0).
        -- constructor; [auto|]. apply N.ltb_ge in Elt.
           rewrite Forall_forall in *. intros x Hx.
           apply keys_set_index in Hx. destruct Hx as [->|Hx]; [|auto].
           split; [assumption|]. rewrite E0, Hk. exact Elt.
      * simpl. constructor; [exact Hok|]. constructor.
        -- split; [congruence|]. rewrite Hk, E0. exact I.
        -- rewrite Forall_forall in *. intros x Hx.
           destruct (Hall x Hx) as [Hne Hord]. rewrite E0 in Hord.
           destruct (array_index x) eqn:Ex; [contradiction|].
           split; [congruence|]. rewrite Hk, Ex. exact I.
Qed.

Lemma obj_ok_set o k v : obj_ok o -> obj_ok (obj_set o k v).
Proof.
  unfold obj_set. destruct (array_index k) eqn:E.
  - now apply obj_ok_set_index.
  - now apply obj_ok_set_named.
Qed.

Lemma obj_ok_nil : obj_ok (@nil (string * V)).
Proof. constructor. Qed.

Lemma keys_obj_set o k v x :
  In x (Object_keys (obj_set o k v)) <-> x = k \/ In x (Object_keys o).
Proof.
  unfold obj_set. destruct (array_index k).
  - apply keys_set_index.
  - apply keys_set_named.
Qed.

End ObjectFacts.

(** ** Sorting *)

Section SortFacts.

Context {A : Type} (cmp : A -> A -> Z).

Lemma sort_insert_perm x l : Permutation (sort_insert cmp x l) (x :: l).
Proof.
  induction l as [|y l IH]; simpl.
  - apply Permutation_refl.
  - destruct (cmp x y <=? 0)%Z.
    + apply Permutation_refl.
    + eapply Permutation_trans; [apply perm_skip, IH|apply perm_swap].
Qed.

Lemma Array_sort_perm l : Permutation (Array_sort cmp l) l.
Proof.
  induction l as [|x l IH]; simpl.
  - constructor.
  - eapply Permutation_trans; [apply sort_insert_perm|].
    now apply perm_skip.
Qed.

Lemma Array_sort_length l : length (Array_sort cmp l) = length l.
Proof. apply Permutation_length, Array_sort_perm. Qed.

Hypothesis cmp_total : forall a b, (cmp a b <= 0 \/ cmp b a <= 0)%Z.
Hypothesis cmp_trans :
  forall a b c, (cmp a b <= 0 -> cmp b c <= 0 -> cmp a c <= 0)%Z.

Lemma sort_insert_ordered x l :
  ordered cmp l -> ordered cmp (sort_insert cmp x l).
Proof.
  unfold ordered. induction 1 as [|y l Hl IH Hy]; simpl.
  - repeat constructor.
  - destruct (cmp x y <=? 0)%Z eqn:E.
    + apply Z.leb_le in E. constructor.
      * now constructor.
      * constructor; [exact E|].
        eapply Forall_impl; [|exact Hy]. intros z Hz. eauto.
    + apply Z.leb_gt in E. constructor; [exact IH|].
      assert (Hyx : (cmp y x <= 0)%Z) by (destruct (cmp_total x y); lia).
      eapply Permutation_Forall;
        [apply Permutation_sym, sort_insert_perm|].
      now constructor.
Qed.

Lemma Array_sort_ordered l : ordered cmp (Array_sort cmp l).
Proof.
  induction l as [|x l IH]; simpl.
  - constructor.
  - now apply sort_insert_ordered.
Qed.

End SortFacts.

(** ** The reduction *)

Lemma reduce_app {A B : Type} (f : B -> A -> exn + B) l1 l2 acc0 acc :
  reduce f (l1 ++ l2)%list acc0 = inr acc ->
  exists mid, reduce f l1 acc0 = inr mid /\ reduce f l2 mid = inr acc.
Proof.
  revert acc0. induction l1 as [|x l1 IH]; simpl; intros acc0 H.
  - eauto.
  - destruct (f acc0 x) as [e|acc1]; [discriminate|]. auto.
Qed.

Lemma reduce_invariant {A B : Type} (f : B -> A -> exn + B)
      (I : list A -> B -> Prop) acc0 :
  I [] acc0 ->
  (forall done x acc acc',
      I done acc -> f acc x = inr acc' -> I (done ++ [x])%list acc') ->
  forall l acc, reduce f l acc0 = inr acc -> I l acc.
Proof.
  intros H0 Hstep l acc.
  change l with ([] ++ l)%list at 2.
  generalize (@nil A) acc0 H0. clear H0.
  induction l as [|x l IH]; simpl; intros done acc1 H1 H.
  - injection H as <-. now rewrite app_nil_r.
  - destruct (f acc1 x) as [e|acc2] eqn:E; [discriminate|].
    replace (done ++ x :: l)%list with ((done ++ [x]) ++ l)%list
      by (rewrite <- app_assoc; reflexivity).
    eapply IH; [|exact H]. eapply Hstep; eauto.
Qed.

(** A list with an element satisfying a test splits at the first one. *)
Lemma first_such {A : Type} (t : A -> bool) (l : list A) x :
  In x l -> t x = true ->
  exists l1 y l2,
    l = (l1 ++ y :: l2)%list /\ Forall (fun z => t z = false) l1 /\
    t y = true.
Proof.
  induction l as [|a l IH]; simpl; [tauto|]. intros Hin Hx.
  destruct (t a) eqn:Ea.
  - exists [], a, l. repeat split; auto.
  - destruct Hin as [->|Hin]; [congruence|].
    destruct (IH Hin Hx) as (l1 & y & l2 & -> & Hl1 & Hy).
    exists (a :: l1), y, l2. repeat split; auto.
Qed.

(** ** One step of the grouping *)

Section GroupFacts.

Variable localeCompare : string -> string -> Z.

#[local] Abbreviation step slugs :=
  (fun acc kv => categorize localeCompare slugs acc (fst kv) (snd kv)).

Lemma categorize_throws slugs acc slug p :
  dangling_alias slugs p = true ->
  categorize localeCompare slugs acc slug p = inl (alias_error slug p).
Proof.
  unfold categorize, dangling_alias. intros ->. reflexivity.
Qed.

Lemma categorize_returns slugs acc slug p :
  dangling_alias slugs p = false ->
  exists acc',
    categorize localeCompare slugs acc slug p = inr acc' /\
    obj_get acc' (primary_key p)
    = Some (Array_sort (by_name localeCompare)
              (nullish (obj_get acc (primary_key p)) []
                 ++ pushed p (resolve_url slug p))%list) /\
    (forall k, primary_key p <> k -> obj_get acc' k = obj_get acc k) /\
    (obj_ok acc -> obj_ok acc').
Proof.
  unfold categorize, dangling_alias. intros ->.
  set (k := primary_key p).
  eexists. split; [reflexivity|].
  destruct (obj_get acc k) as [old|] eqn:E; simpl; rewrite ?E; simpl.
  - split; [|split].
    + rewrite obj_get_set_same, obj_get_set_same. reflexivity.
    + intros k' Hk'. now rewrite !obj_get_set_other.
    + intros Hok. now repeat apply obj_ok_set.
  - split; [|split].
    + rewrite obj_get_set_same, obj_get_set_same, obj_get_set_same.
      reflexivity.
    + intros k' Hk'. now rewrite !obj_get_set_other.
    + intros Hok. now repeat apply obj_ok_set.
Qed.

Lemma categorize_inr slugs acc slug p acc' :
  categorize localeCompare slugs acc slug p = inr acc' ->
  dangling_alias slugs p = false.
Proof.
  destruct (dangling_alias slugs p) eqn:E; [|reflexivity].
  rewrite (categorize_throws _ _ _ _ E). discriminate.
Qed.

Lemma rows_for_snoc k done x :
  rows_for k (done ++ [x])
  = (rows_for k done
       ++ (if primary_key (snd x) =? k
           then pushed (snd x) (resolve_url (fst x) (snd x))
           else []))%list.
Proof.
  unfold rows_for. rewrite filter_app, flat_map_app. simpl.
  destruct (primary_key (snd x) =? k); simpl;
    [rewrite app_nil_r|]; reflexivity.
Qed.

(** What the buckets hold once a list of entries has been reduced. *)
Lemma reduce_buckets slugs l acc :
  reduce (step slugs) l [] = inr acc ->
  obj_ok acc /\
  forall k,
    Permutation (nullish (obj_get acc k) []) (rows_for k l) /\
    (obj_get acc k = None ->
     Forall (fun kv => primary_key (snd kv) <> k) l).
Proof.
  apply (reduce_invariant (step slugs)
           (fun done acc =>
              obj_ok acc /\
              forall k,
                Permutation (nullish (obj_get acc k) []) (rows_for k done) /\
                (obj_get acc k = None ->
                 Forall (fun kv => primary_key (snd kv) <> k) done))).
  - split; [apply obj_ok_nil|]. intros k. split; constructor.
  - intros done [slug p] acc0 acc1 [Hok Hinv] Hstep. simpl in Hstep.
    pose proof (categorize_inr _ _ _ _ _ Hstep) as Hd.
    destruct (categorize_returns slugs acc0 slug p Hd)
      as (acc' & Heq & Hsame & Hother & Hok').
    rewrite Heq in Hstep. injection Hstep as <-.
    split; [auto|]. intros k. rewrite rows_for_snoc. simpl.
    destruct (String.eqb_spec (primary_key p) k) as [<-|Hne].
    + rewrite Hsame. simpl. split.
      * eapply Permutation_trans; [apply Array_sort_perm|].
        apply Permutation_app_tail, Hinv.
      * discriminate.
    + rewrite (Hother _ Hne), app_nil_r. split; [apply Hinv|].
      intros Hnone. apply Forall_app. split; [now apply Hinv|].
      constructor; [exact Hne|constructor].
Qed.

Hypothesis localeCompare_total :
  forall a b, (localeCompare a b <= 0 \/ localeCompare b a <= 0)%Z.
Hypothesis localeCompare_trans :
  forall a b c,
    (localeCompare a b <= 0 -> localeCompare b c <= 0 ->
     localeCompare a c <= 0)%Z.

Lemma reduce_ordered slugs l acc :
  reduce (step slugs) l [] = inr acc ->
  forall k bucket,
    obj_get acc k = Some bucket -> ordered (by_name localeCompare) bucket.
Proof.
  apply (reduce_invariant (step slugs)
           (fun _ acc =>
              forall k bucket,
                obj_get acc k = Some bucket ->
                ordered (by_name localeCompare) bucket)).
  - intros k bucket. discriminate.
  - intros done [slug p] acc0 acc1 Hinv Hstep k bucket. simpl in Hstep.
    pose proof (categorize_inr _ _ _ _ _ Hstep) as Hd.
    destruct (categorize_returns slugs acc0 slug p Hd)
      as (acc' & Heq & Hsame & Hother & _).
    rewrite Heq in Hstep. injection Hstep as <-.
    destruct (String.eqb_spec (primary_key p) k) as [<-|Hne].
    + rewrite Hsame. intros [= <-]. apply Array_sort_ordered.
      * intros a b. apply localeCompare_total.
      * intros a b c. apply localeCompare_trans.
    + rewrite (Hother _ Hne). apply Hinv.
Qed.

End GroupFacts.

(** ** The merged catalogue *)

Section MergeFacts.

Context {A B : Type} (g : A -> B).

Lemma obj_get_assign_all (l : obj A) (acc : obj B) k :
  obj_get (fold_left (fun acc kv => obj_set acc (fst kv) (g (snd kv))) l acc)
          k
  = match obj_get (rev l) k with
    | Some a => Some (g a)
    | None => obj_get acc k
    end.
Proof.
  revert acc. induction l as [|[k0 a0] l IH]; simpl; intros acc.
  - reflexivity.
  - rewrite IH, obj_get_app. destruct (obj_get (rev l) k); [reflexivity|].
    simpl. rewrite obj_get_set. destruct (k0 =? k); reflexivity.
Qed.

Lemma obj_ok_assign_all (l : obj A) (acc : obj B) :
  obj_ok acc ->
  obj_ok (fold_left (fun acc kv => obj_set acc (fst kv) (g (snd kv))) l acc).
Proof.
  revert acc. induction l as [|x l IH]; simpl; intros acc Hok.
  - exact Hok.
  - apply IH. now apply obj_ok_set.
Qed.

End MergeFacts.

Lemma obj_get_label {A : Type} (f : A -> MappedPort) (o : obj A) k :
  NoDup (Object_keys o) ->
  obj_get (label f o) k = option_map f (obj_get o k).
Proof.
  intros Hnd. unfold label, Object_entries.
  rewrite obj_get_assign_all, obj_get_rev by exact Hnd.
  destruct (obj_get o k); reflexivity.
Qed.

Lemma obj_ok_label {A : Type} (f : A -> MappedPort) (o : obj A) :
  obj_ok (label f o).
Proof. apply obj_ok_assign_all, obj_ok_nil. Qed.

Lemma obj_get_spread2 {V : Type} (a b : obj V) k :
  NoDup (Object_keys a) -> NoDup (Object_keys b) ->
  obj_get (spread2 a b) k
  = match obj_get b k with
    | Some v => Some v
    | None => obj_get a k
    end.
Proof.
  intros Ha Hb. unfold spread2, spread_into, Object_entries.
  rewrite (obj_get_assign_all (fun v => v)), obj_get_rev by exact Hb.
  destruct (obj_get b k); [reflexivity|].
  rewrite (obj_get_assign_all (fun v => v)), obj_get_rev by exact Ha.
  destruct (obj_get a k); reflexivity.
Qed.

Lemma obj_ok_spread2 {V : Type} (a b : obj V) : obj_ok (spread2 a b).
Proof.
  unfold spread2, spread_into.
  apply (obj_ok_assign_all (fun v => v)), (obj_ok_assign_all (fun v => v)).
  apply obj_ok_nil.
Qed.

Lemma obj_get_ports P U slug :
  NoDup (Object_keys P) -> NoDup (Object_keys U) ->
  obj_get (ports P U) slug
  = match obj_get U slug with
    | Some u => Some (tag_userstyle u)
    | None => option_map tag_port (obj_get P slug)
    end.
Proof.
  intros HP HU. unfold ports.
  rewrite obj_get_spread2 by (apply obj_ok_NoDup, obj_ok_label).
  rewrite !obj_get_label by assumption.
  destruct (obj_get U slug); reflexivity.
Qed.

(** C7: the merged catalogue is one object keyed by slug; the entry of a
    slug is the userstyle of that slug tagged ["userstyle"] when the
    userstyles catalogue has the slug, whether or not the ports catalogue
    has it too, and otherwise the port of that slug tagged ["port"]. *)
Theorem ports_userstyle_overwrites_port P U :
  NoDup (Object_keys P) -> NoDup (Object_keys U) ->
  obj_ok (ports P U) /\
  (forall slug,
      obj_get (ports P U) slug
      = match obj_get U slug with
        | Some u => Some (tag_userstyle u)
        | None => option_map tag_port (obj_get P slug)
        end) /\
  (forall slug m,
      In (slug, m) (Object_entries (ports P U)) ->
      (type m = type_userstyle /\
       exists u, obj_get U slug = Some u /\ m = tag_userstyle u) \/
      (type m = type_port /\ obj_get U slug = None /\
       exists p, obj_get P slug = Some p /\ m = tag_port p)).
Proof.
  intros HP HU.
  assert (Hok : obj_ok (ports P U)) by apply obj_ok_spread2.
  split; [exact Hok|]. split.
  - intros slug. now apply obj_get_ports.
  - intros slug m Hin. apply (In_obj_get _ _ _ Hok) in Hin.
    rewrite obj_get_ports in Hin by assumption.
    destruct (obj_get U slug) as [u|].
    + injection Hin as <-. left. eauto.
    + destruct (obj_get P slug) as [p|]; [|discriminate].
      injection Hin as <-. right. eauto.
Qed.

(** ** The run *)

Section RunFacts.

Variable localeCompare : string -> string -> Z.
Variable updateReadme : string -> string -> string -> exn + string.

#[local] Abbreviation main' := (main localeCompare updateReadme).

Lemma main_absent pd cd ud s :
  PortsSchema.ports pd = None \/ cd = None \/
  UserstylesSchema.userstyles ud = None ->
  main' pd cd ud s = (inl (Error "ports.yml is empty"), s).
Proof.
  unfold main. intros [H|[H|H]]; rewrite H.
  - reflexivity.
  - destruct (PortsSchema.ports pd); reflexivity.
  - destruct (PortsSchema.ports pd), cd; reflexivity.
Qed.

Lemma main_grouping_throws pd cd ud P C U e s :
  PortsSchema.ports pd = Some P -> cd = Some C ->
  UserstylesSchema.userstyles ud = Some U ->
  categorized localeCompare (ports P U) = inl e ->
  main' pd cd ud s = (inl e, s).
Proof.
  intros HP HC HU He. unfold main. rewrite HP, HC, HU.
  unfold bind, lift. rewrite He. reflexivity.
Qed.

Lemma main_unreadable pd cd ud P C U cz :
  PortsSchema.ports pd = Some P -> cd = Some C ->
  UserstylesSchema.userstyles ud = Some U ->
  categorized localeCompare (ports P U) = inr cz ->
  run (main' pd cd ud) None
  = (inl (Error "NotFound"), mkState None "" [ReadReadme]).
Proof.
  intros HP HC HU Hcz. unfold run, main. rewrite HP, HC, HU.
  unfold bind, lift. rewrite Hcz. reflexivity.
Qed.

Lemma main_splices pd cd ud P C U cz r :
  PortsSchema.ports pd = Some P -> cd = Some C ->
  UserstylesSchema.userstyles ud = Some U ->
  categorized localeCompare (ports P U) = inr cz ->
  let pc := portContent (portListData C cz) in
  let sc := showcaseContent (PortsSchema.showcases pd) in
  let log := ConsoleLog "Failed to update the README:" in
  run (main' pd cd ud) (Some r)
  = match updateReadme r pc "portlist" with
    | inl e =>
        (inr tt,
         mkState (Some r) r
           [ReadReadme; UpdateReadme "portlist"; log e; WriteReadme r])
    | inr r1 =>
        if truthy sc then
          match updateReadme r1 (template sc) "showcase" with
          | inl e =>
              (inr tt,
               mkState (Some r1) r1
                 [ReadReadme; UpdateReadme "portlist";
                  UpdateReadme "showcase"; log e; WriteReadme r1])
          | inr r2 =>
              (inr tt,
               mkState (Some r2) r2
                 [ReadReadme; UpdateReadme "portlist";
                  UpdateReadme "showcase"; WriteReadme r2])
          end
        else
          (inr tt,
           mkState (Some r1) r1
             [ReadReadme; UpdateReadme "portlist"; WriteReadme r1])
    end.
Proof.
  intros HP HC HU Hcz. unfold run, main. rewrite HP, HC, HU.
  unfold bind at 1. unfold lift at 1. rewrite Hcz.
  cbv beta iota zeta delta [ret].
  generalize (portContent (portListData C cz)) as pc.
  generalize (showcaseContent (PortsSchema.showcases pd)) as sc.
  intros sc pc.
  unfold try_catch_finally, call_updateReadme, readTextFile, writeTextFile,
    console_log, set_readmeContent, get_readmeContent, emit, bind, ret, lift,
    throw.
  simpl.
  destruct (updateReadme r pc "portlist") as [e|r1]; simpl; [reflexivity|].
  destruct (truthy sc); simpl; [|reflexivity].
  destruct (updateReadme r1 (template sc) "showcase"); reflexivity.
Qed.

End RunFacts.

(** ** The concrete comparator is consistent *)

Lemma compare_code_units_total a b :
  (compare_code_units a b <= 0 \/ compare_code_units b a <= 0)%Z.
Proof.
  revert b. induction a as [|x a IH]; intros [|y b]; simpl; try lia.
  destruct (Z.eqb_spec (Z.of_N (N_of_ascii x) - Z.of_N (N_of_ascii y)) 0);
    destruct (Z.eqb_spec (Z.of_N (N_of_ascii y) - Z.of_N (N_of_ascii x)) 0);
    try lia.
  apply IH.
Qed.

Lemma compare_code_units_trans a b c :
  (compare_code_units a b <= 0 -> compare_code_units b c <= 0 ->
   compare_code_units a c <= 0)%Z.
Proof.
  revert b c.
  induction a as [|x a IH]; intros [|y b] [|z c]; simpl; try lia.
  destruct (Z.eqb_spec (Z.of_N (N_of_ascii x) - Z.of_N (N_of_ascii y)) 0);
    destruct (Z.eqb_spec (Z.of_N (N_of_ascii y) - Z.of_N (N_of_ascii z)) 0);
    destruct (Z.eqb_spec (Z.of_N (N_of_ascii x) - Z.of_N (N_of_ascii z)) 0);
    try lia.
  apply IH.
Qed.

(** ** Grouping: the claims *)

Lemma reduce_returns localeCompare slugs l acc0 :
  Forall (fun kv => dangling_alias slugs (snd kv) = false) l ->
  exists acc,
    reduce (fun acc kv => categorize localeCompare slugs acc (fst kv) (snd kv))
           l acc0 = inr acc.
Proof.
  intros H. revert acc0. induction H as [|[slug p] l Hp Hl IH]; simpl.
  - eauto.
  - intros acc0.
    destruct (categorize_returns localeCompare slugs acc0 slug p Hp)
      as (acc1 & -> & _). apply IH.
Qed.

Lemma reduce_first_throw localeCompare slugs l1 slug p l2 acc0 :
  Forall (fun kv => dangling_alias slugs (snd kv) = false) l1 ->
  dangling_alias slugs p = true ->
  reduce (fun acc kv => categorize localeCompare slugs acc (fst kv) (snd kv))
         (l1 ++ (slug, p) :: l2)%list acc0
  = inl (alias_error slug p).
Proof.
  intros H Hp. revert acc0. induction H as [|[s q] l1 Hq Hl IH]; simpl.
  - intros acc0. now rewrite categorize_throws.
  - intros acc0.
    destruct (categorize_returns localeCompare slugs acc0 s q Hq)
      as (acc1 & -> & _). apply IH.
Qed.

Lemma includes_In xs a : includes xs (Some a) = true <-> In a xs.
Proof.
  simpl. rewrite existsb_exists. split.
  - intros (x & Hx & E). apply String.eqb_eq in E. now subst.
  - intros H. exists a. split; [exact H|apply String.eqb_refl].
Qed.

Lemma truthy_Some a : truthy (Some a) = true <-> a <> "".
Proof.
  simpl. destruct (String.eqb_spec a ""); simpl; split; congruence.
Qed.

(** C4: when no entry has a dangling alias the grouping returns, and in
    what it returns every bucket is in non-decreasing order of [name]
    under the comparator of the sort; the same holds of the accumulator
    after each entry, that is after every prefix of the entries. *)
Theorem buckets_sorted_after_every_entry
        (localeCompare : string -> string -> Z) (merged : obj MappedPort) :
  (forall a b, localeCompare a b <= 0 \/ localeCompare b a <= 0)%Z ->
  (forall a b c, localeCompare a b <= 0 -> localeCompare b c <= 0 ->
                 localeCompare a c <= 0)%Z ->
  Forall (fun kv => dangling_alias (portSlugs merged) (snd kv) = false)
         (Object_entries merged) ->
  (exists acc,
      categorized localeCompare merged = inr acc /\
      forall k bucket,
        In (k, bucket) (Object_entries acc) ->
        ordered (by_name localeCompare) bucket) /\
  (forall l1 l2,
      Object_entries merged = (l1 ++ l2)%list ->
      exists acc,
        reduce (fun acc kv =>
                  categorize localeCompare (portSlugs merged) acc
                             (fst kv) (snd kv))
               l1 [] = inr acc /\
        forall k bucket,
          In (k, bucket) (Object_entries acc) ->
          ordered (by_name localeCompare) bucket).
Proof.
  intros Htotal Htrans Hvalid.
  assert (Hprefix : forall l,
             Forall (fun kv => dangling_alias (portSlugs merged) (snd kv)
                               = false) l ->
             exists acc,
               reduce (fun acc kv =>
                         categorize localeCompare (portSlugs merged) acc
                                    (fst kv) (snd kv))
                      l [] = inr acc /\
               forall k bucket,
                 In (k, bucket) (Object_entries acc) ->
                 ordered (by_name localeCompare) bucket).
  { intros l Hl.
    destruct (reduce_returns localeCompare _ l [] Hl) as [acc Hacc].
    exists acc. split; [exact Hacc|]. intros k bucket Hin.
    destruct (reduce_buckets _ _ _ _ Hacc) as [Hok _].
    apply (reduce_ordered localeCompare Htotal Htrans _ _ _ Hacc k).
    now apply In_obj_get. }
  split.
  - apply Hprefix, Hvalid.
  - intros l1 l2 Hsplit. apply Hprefix. rewrite Hsplit in Hvalid.
    now apply Forall_app in Hvalid.
Qed.

(** C5: an entry that passes the alias check has K + 1 rows pushed to the
    bucket of its primary category, K being the number of entries of its
    [supports] (0 when it has none): first the row with the entry's own
    name, then one row per [supports] value with the name of that value,
    all with the resolved URL.  The bucket afterwards is the sorted array
    of its old rows and these, and the other buckets are as before. *)
Theorem categorize_pushes_one_row_per_variant_plus_one
        (localeCompare : string -> string -> Z) (portSlugs : list string)
        (acc : obj (list MappedPort)) (slug : string) (p : MappedPort) :
  dangling_alias portSlugs p = false ->
  let resolved := resolve_url slug p in
  let variants := Object_values (nullish (supports p) []) in
  let old := nullish (obj_get acc (primary_key p)) [] in
  (forall c cs, categories p = c :: cs -> primary_key p = c) /\
  length (pushed p resolved) = S (length variants) /\
  map name (pushed p resolved) = name p :: map Support.name variants /\
  Forall (fun row => url row = resolved) (pushed p resolved) /\
  (supports p = None -> pushed p resolved = [with_url p resolved]) /\
  exists acc' bucket,
    categorize localeCompare portSlugs acc slug p = inr acc' /\
    obj_get acc' (primary_key p) = Some bucket /\
    bucket = Array_sort (by_name localeCompare) (old ++ pushed p resolved)%list /\
    Permutation bucket (old ++ pushed p resolved)%list /\
    length bucket = (length old + S (length variants))%nat /\
    forall k, primary_key p <> k -> obj_get acc' k = obj_get acc k.
Proof.
  intros Hd url0 variants old.
  split; [|split; [|split; [|split; [|split]]]].
  - intros c cs Hc. unfold primary_key. rewrite Hc. reflexivity.
  - unfold pushed. simpl. now rewrite length_map.
  - unfold pushed. simpl. now rewrite map_map.
  - unfold pushed. constructor; [reflexivity|].
    apply Forall_map, Forall_forall. reflexivity.
  - intros Hs. unfold pushed. rewrite Hs. reflexivity.
  - destruct (categorize_returns localeCompare portSlugs acc slug p Hd)
      as (acc' & Heq & Hsame & Hother & _).
    exists acc', (Array_sort (by_name localeCompare)
                    (old ++ pushed p url0)%list).
    repeat split; auto.
    + apply Array_sort_perm.
    + rewrite Array_sort_length, length_app. f_equal.
      unfold pushed. simpl. now rewrite length_map.
Qed.

Lemma pushed_fields p u row :
  In row (pushed p u) ->
  categories row = categories p /\ alias row = alias p /\
  supports row = supports p /\ platform row = platform p /\
  readme row = readme p /\ rest row = rest p /\ type row = type p /\
  url row = u /\
  (name row = name p \/
   exists s, In s (Object_values (nullish (supports p) [])) /\
             name row = Support.name s).
Proof.
  unfold pushed. intros [<-|Hin].
  - simpl. repeat split. now left.
  - apply in_map_iff in Hin. destruct Hin as (s & <- & Hs).
    simpl. repeat split. right. eauto.
Qed.

(** C1, as the code has it: every row of every bucket is a copy of an
    entry of the merged catalogue whose primary category is the bucket's
    key.  The copy has all the properties of the entry, [readme] and
    [platform] among them, with [url] replaced by the resolved URL and,
    in the row of a supported variant, [name] replaced by the variant's
    name.  The rendered list item is made of [name] and [url] alone. *)
Theorem rows_carry_every_field_of_their_entry
        (localeCompare : string -> string -> Z) (ports : obj MappedPort)
        (acc : obj (list MappedPort)) (k : string)
        (bucket : list MappedPort) (row : MappedPort) :
  categorized localeCompare ports = inr acc ->
  In (k, bucket) (Object_entries acc) ->
  In row bucket ->
  (exists slug p,
      In (slug, p) (Object_entries ports) /\ primary_key p = k /\
      readme row = readme p /\ platform row = platform p /\
      categories row = categories p /\ alias row = alias p /\
      supports row = supports p /\ rest row = rest p /\
      type row = type p /\
      url row = resolve_url slug p /\
      (name row = name p \/
       exists s, In s (Object_values (nullish (supports p) [])) /\
                 name row = Support.name s)) /\
  (forall row', name row' = name row -> url row' = url row ->
                port_item row' = port_item row).
Proof.
  intros Hacc Hk Hrow. split.
  - destruct (reduce_buckets _ _ _ _ Hacc) as [Hok Hinv].
    apply (In_obj_get _ _ _ Hok) in Hk.
    destruct (Hinv k) as [Hperm _]. rewrite Hk in Hperm. simpl in Hperm.
    apply (Permutation_in _ Hperm) in Hrow. unfold rows_for in Hrow.
    apply in_flat_map in Hrow. destruct Hrow as ([slug p] & Hin & Hrow).
    apply filter_In in Hin. destruct Hin as [Hin Hkey]. simpl in *.
    apply String.eqb_eq in Hkey.
    apply pushed_fields in Hrow. exists slug, p. intuition.
  - intros row' Hn Hu. unfold port_item. now rewrite Hn, Hu.
Qed.

(** C6, as the code has it: a non-empty [url] is used as it is; without
    one, or with an empty one, a port gets the repository of its alias,
    or of its slug when it has no alias, and a userstyle the directory
    of its slug in the userstyles repository. *)
Theorem resolve_url_cases (slug : string) (p : MappedPort) :
  (forall u, url p = Some u -> u <> "" -> resolve_url slug p = Some u) /\
  (url p = None \/ url p = Some "" ->
   type p = type_port ->
   resolve_url slug p
   = Some ("https://github.com/catppuccin/"
             ++ match alias p with
                | Some a => a
                | None => slug
                end)) /\
  (url p = None \/ url p = Some "" ->
   type p = type_userstyle ->
   resolve_url slug p
   = Some ("https://github.com/catppuccin/userstyles/tree/main/styles/"
             ++ slug)).
Proof.
  unfold resolve_url. split; [|split].
  - intros u Hu Hne. rewrite Hu.
    apply truthy_Some in Hne. rewrite Hne. reflexivity.
  - intros [Hu|Hu] Ht; rewrite Hu, Ht; reflexivity.
  - intros [Hu|Hu] Ht; rewrite Hu, Ht; reflexivity.
Qed.

(** ** The run: the claims *)

Lemma reduce_inl_alias_error localeCompare slugs l acc0 e :
  reduce (fun acc kv => categorize localeCompare slugs acc (fst kv) (snd kv))
         l acc0 = inl e ->
  exists slug p, In (slug, p) l /\ e = alias_error slug p.
Proof.
  revert acc0. induction l as [|[slug p] l IH]; simpl; [discriminate|].
  intros acc0 H. destruct (dangling_alias slugs p) eqn:Hd.
  - rewrite (categorize_throws localeCompare _ acc0 slug _ Hd) in H.
    injection H as <-. eauto.
  - destruct (categorize_returns localeCompare slugs acc0 slug p Hd)
      as (acc1 & Heq & _). rewrite Heq in H.
    destruct (IH _ H) as (slug' & p' & Hin & ->). eauto.
Qed.

(** C2, as the code has it: when the ports collection, the categories
    collection or the userstyles collection is absent after validation,
    the run throws ["ports.yml is empty"] and has done nothing: no
    README read, no splice, no log, no write.  When the three are
    present the run never ends with that error, whatever they hold; in
    particular with no port and no userstyle the README is spliced and
    written. *)
Theorem absent_collection_aborts_empty_one_does_not
        (localeCompare : string -> string -> Z)
        (updateReadme : string -> string -> string -> exn + string)
        (pd : PortsSchema.t) (cd : option (list Category.t))
        (ud : UserstylesSchema.t) (file : option string) :
  let result := run (main localeCompare updateReadme pd cd ud) file in
  (PortsSchema.ports pd = None \/ cd = None \/
   UserstylesSchema.userstyles ud = None ->
   result = (inl (Error "ports.yml is empty"), mkState file "" [])) /\
  (forall P C U,
      PortsSchema.ports pd = Some P -> cd = Some C ->
      UserstylesSchema.userstyles ud = Some U ->
      fst result <> inl (Error "ports.yml is empty")) /\
  (forall C r,
      PortsSchema.ports pd = Some [] -> cd = Some C ->
      UserstylesSchema.userstyles ud = Some [] -> file = Some r ->
      let final :=
        spliced updateReadme r (portContent (portListData C []))
                (showcaseContent (PortsSchema.showcases pd)) in
      exists events,
        result
        = (inr tt,
           mkState (Some final) final
                   (ReadReadme :: events ++ [WriteReadme final]))).
Proof.
  intros result. subst result. split; [|split].
  - intros H. unfold run. now apply main_absent.
  - intros P C U HP HC HU.
    destruct (categorized localeCompare (ports P U)) as [e|cz] eqn:Hcz.
    + unfold run.
      rewrite (main_grouping_throws localeCompare updateReadme
                 pd cd ud P C U e _ HP HC HU Hcz). simpl.
      apply reduce_inl_alias_error in Hcz.
      destruct Hcz as (slug & p & _ & ->). discriminate.
    + destruct file as [r|].
      * rewrite (main_splices localeCompare updateReadme pd cd ud P C U cz r
                              HP HC HU Hcz).
        destruct (updateReadme r _ "portlist") as [e|r1];
          [discriminate|].
        destruct (truthy _); [|discriminate].
        destruct (updateReadme r1 _ "showcase"); discriminate.
      * rewrite (main_unreadable localeCompare updateReadme pd cd ud P C U cz
                                 HP HC HU Hcz). discriminate.
  - intros C r HP HC HU -> final.
    rewrite (main_splices localeCompare updateReadme pd cd ud
                          [] C [] [] r HP HC HU eq_refl).
    subst final. unfold spliced.
    destruct (updateReadme r _ "portlist") as [e|r1].
    + eexists [_; _]. reflexivity.
    + destruct (truthy _).
      * destruct (updateReadme r1 _ "showcase").
        -- eexists [_; _; _]. reflexivity.
        -- eexists [_; _]. reflexivity.
      * eexists [_]. reflexivity.
Qed.

(** X12: when some entry of the merged catalogue has a non-empty alias
    that is not among the slugs of the catalogue, the grouping throws for
    the first such entry in enumeration order, with a message that quotes
    the slug and the alias of that entry, and the run ends with that
    error having done nothing: no README read, no splice, no write. *)
Theorem dangling_alias_aborts_the_run
        (localeCompare : string -> string -> Z)
        (updateReadme : string -> string -> string -> exn + string)
        (pd : PortsSchema.t) (cd : option (list Category.t))
        (ud : UserstylesSchema.t) (file : option string)
        P C U (slug : string) (p : MappedPort) (a : string) :
  PortsSchema.ports pd = Some P -> cd = Some C ->
  UserstylesSchema.userstyles ud = Some U ->
  In (slug, p) (Object_entries (ports P U)) ->
  alias p = Some a -> a <> "" -> ~ In a (portSlugs (ports P U)) ->
  exists l1 slug' p' a' l2,
    Object_entries (ports P U) = (l1 ++ (slug', p') :: l2)%list /\
    Forall (fun kv => dangling_alias (portSlugs (ports P U)) (snd kv)
                      = false) l1 /\
    alias p' = Some a' /\ a' <> "" /\ ~ In a' (portSlugs (ports P U)) /\
    let e := Error ("port `" ++ slug' ++ "` points to an alias `"
                      ++ a' ++ "` that doesn't exist") in
    categorized localeCompare (ports P U) = inl e /\
    run (main localeCompare updateReadme pd cd ud) file
    = (inl e, mkState file "" []).
Proof.
  intros HP HC HU Hin Ha Hne Hnot.
  assert (Hd : dangling_alias (portSlugs (ports P U)) p = true).
  { unfold dangling_alias. rewrite Ha.
    apply truthy_Some in Hne. rewrite Hne. simpl.
    destruct (existsb (String.eqb a) (portSlugs (ports P U))) eqn:E;
      [|reflexivity].
    exfalso. apply Hnot. now apply includes_In. }
  destruct (first_such
              (fun kv => dangling_alias (portSlugs (ports P U)) (snd kv))
              _ (slug, p) Hin Hd)
    as (l1 & [slug' p'] & l2 & Hsplit & Hl1 & Hp'). simpl in Hp'.
  assert (Hp'' := Hp'). unfold dangling_alias in Hp''.
  apply andb_true_iff in Hp''. destruct Hp'' as [Ht Hi].
  destruct (alias p') as [a'|] eqn:Ea'; [|discriminate].
  exists l1, slug', p', a', l2.
  assert (He : categorized localeCompare (ports P U)
               = inl (alias_error slug' p')).
  { unfold categorized. rewrite Hsplit. now apply reduce_first_throw. }
  unfold alias_error in He. rewrite Ea' in He. simpl template in He.
  repeat split; auto.
  - now apply truthy_Some.
  - intros Hin'. apply includes_In in Hin'.
    rewrite Hin' in Hi. discriminate.
  - unfold run. eapply main_grouping_throws; eauto.
Qed.

(** ** Rendering *)

Lemma append_assoc (a b c : string) : (a ++ b) ++ c = a ++ b ++ c.
Proof.
  induction a as [|x a IH]; simpl; [reflexivity|]. now rewrite IH.
Qed.

Lemma details_collapsible category rows :
  details (category, rows)
  = collapsible (Category.emoji category ++ " " ++ Category.name category)
                (join nl (map link_item rows)).
Proof.
  unfold details, collapsible. simpl fst. simpl snd.
  rewrite !append_assoc. reflexivity.
Qed.

Lemma port_list_blocks_app cs1 cs2 categorized :
  port_list_blocks (cs1 ++ cs2) categorized
  = (port_list_blocks cs1 categorized
       ++ port_list_blocks cs2 categorized)%list.
Proof.
  induction cs1 as [|c cs1 IH]; simpl; [reflexivity|].
  destruct (obj_get categorized (Category.key c)) as [[|row rows]|];
    simpl; now rewrite IH.
Qed.

Lemma portContent_port_list_blocks categoriesData categorized :
  portContent (portListData categoriesData categorized)
  = join nl (port_list_blocks categoriesData categorized).
Proof.
  unfold portContent. f_equal.
  induction categoriesData as [|c cs IH]; simpl; [reflexivity|].
  destruct (obj_get categorized (Category.key c)) as [[|row rows]|]; simpl.
  - exact IH.
  - rewrite IH. f_equal. apply details_collapsible.
  - exact IH.
Qed.

(** C8: the port list is the newline-joined sequence of the blocks of the
    categories in their declared order; a category whose bucket is absent
    or empty gives no block, wherever it stands among the categories; the
    block of another category is a collapsible block titled with its
    emoji, a space and its name, whose body is the newline-joined list
    items [- [name](url)] of its rows. *)
Theorem portContent_blocks_in_declared_order
        (categoriesData : list Category.t)
        (categorized : obj (list MappedPort)) :
  portContent (portListData categoriesData categorized)
  = join nl (port_list_blocks categoriesData categorized) /\
  (forall cs1 cs2,
      categoriesData = (cs1 ++ cs2)%list ->
      port_list_blocks categoriesData categorized
      = (port_list_blocks cs1 categorized
           ++ port_list_blocks cs2 categorized)%list) /\
  (forall cs1 c cs2,
      categoriesData = (cs1 ++ c :: cs2)%list ->
      obj_get categorized (Category.key c) = None \/
      obj_get categorized (Category.key c) = Some [] ->
      portContent (portListData categoriesData categorized)
      = portContent (portListData (cs1 ++ cs2) categorized)) /\
  (forall c row rows,
      categoriesData = [c] ->
      obj_get categorized (Category.key c) = Some (row :: rows) ->
      portContent (portListData categoriesData categorized)
      = "<details open>" ++ nl
          ++ "<summary>" ++ Category.emoji c ++ " " ++ Category.name c
          ++ "</summary>" ++ nl ++ nl
          ++ join nl (map (fun r => "- [" ++ name r ++ "]("
                                      ++ template (url r) ++ ")")
                          (row :: rows))
          ++ nl ++ nl ++ "</details>").
Proof.
  split; [apply portContent_port_list_blocks|]. split; [|split].
  - intros cs1 cs2 ->. apply port_list_blocks_app.
  - intros cs1 c cs2 -> Hc.
    rewrite !portContent_port_list_blocks, !port_list_blocks_app.
    simpl. destruct Hc as [-> | ->]; reflexivity.
  - intros c row rows -> Hc. unfold portContent, portListData. simpl.
    rewrite Hc. reflexivity.
Qed.

Lemma join_nonempty sep x xs : x <> "" -> join sep (x :: xs) <> "".
Proof.
  intros Hx. simpl. destruct xs; [exact Hx|].
  destruct x; [contradiction|]. discriminate.
Qed.

Lemma showcaseContent_falsy showcases :
  truthy (showcaseContent showcases) = false <->
  showcases = None \/ showcases = Some [].
Proof.
  destruct showcases as [[|x l]|]; simpl.
  - split; auto.
  - split.
    + intros H. apply negb_false_iff, String.eqb_eq in H.
      exfalso. revert H.
      apply (join_nonempty nl (showcase_item x) (map showcase_item l)).
      discriminate.
    + intros [H|H]; discriminate.
  - split; auto.
Qed.

(** C9: once the three collections are there, the grouping has returned
    and the README has been read, the run ends normally and its last
    effect is the one write of the README, whatever the two splices do.
    The document written is the README with the splices that succeeded
    before the first failure, and a failing splice is logged. *)
Theorem README_written_whatever_the_splices_do
        (localeCompare : string -> string -> Z)
        (updateReadme : string -> string -> string -> exn + string)
        (pd : PortsSchema.t) (cd : option (list Category.t))
        (ud : UserstylesSchema.t) P C U cz (r : string) :
  PortsSchema.ports pd = Some P -> cd = Some C ->
  UserstylesSchema.userstyles ud = Some U ->
  categorized localeCompare (ports P U) = inr cz ->
  let pc := portContent (portListData C cz) in
  let sc := showcaseContent (PortsSchema.showcases pd) in
  let final := spliced updateReadme r pc sc in
  exists events,
    run (main localeCompare updateReadme pd cd ud) (Some r)
    = (inr tt,
       mkState (Some final) final
               (ReadReadme :: events ++ [WriteReadme final])) /\
    (forall content, ~ In (WriteReadme content) events) /\
    (forall e, updateReadme r pc "portlist" = inl e ->
               final = r /\
               In (ConsoleLog "Failed to update the README:" e) events) /\
    (forall r1 e,
        updateReadme r pc "portlist" = inr r1 -> truthy sc = true ->
        updateReadme r1 (template sc) "showcase" = inl e ->
        final = r1 /\
        In (ConsoleLog "Failed to update the README:" e) events).
Proof.
  intros HP HC HU Hcz pc sc final.
  rewrite (main_splices localeCompare updateReadme pd cd ud P C U cz r
                        HP HC HU Hcz).
  subst final. unfold spliced. fold pc. fold sc.
  destruct (updateReadme r pc "portlist") as [e|r1].
  - eexists [_; _]. split; [reflexivity|]. split; [|split].
    + intros content [H|[H|[]]]; discriminate.
    + intros e' He'. replace e' with e by congruence.
      split; [reflexivity|]. right. now left.
    + intros r1 e' H. discriminate.
  - destruct (truthy sc).
    + destruct (updateReadme r1 (template sc) "showcase") as [e|r2] eqn:E2.
      * eexists [_; _; _]. split; [reflexivity|]. split; [|split].
        -- intros content [H|[H|[H|[]]]]; discriminate.
        -- intros e' H. discriminate.
        -- intros r1' e' Hr1 _ He'. replace r1' with r1 in * by congruence.
           replace e' with e by congruence. split; [reflexivity|].
           right. right. now left.
      * eexists [_; _]. split; [reflexivity|]. split; [|split].
        -- intros content [H|[H|[]]]; discriminate.
        -- intros e' H. discriminate.
        -- intros r1' e' Hr1 _ H. replace r1' with r1 in * by congruence.
           congruence.
    + eexists [_]. split; [reflexivity|]. split; [|split].
      * intros content [H|[]]; discriminate.
      * intros e' H. discriminate.
      * intros r1' e' _ H. discriminate.
Qed.

(** C10: the two splices are in one [try].  When the splice of the port
    list throws, the showcase splice is not attempted and the document
    written is the README as it was read; a showcase splice is attempted
    only after the splice of the port list has returned and when the
    showcase content is truthy, that is unless the showcases are absent
    or empty. *)
Theorem showcase_splice_needs_the_portlist_splice
        (localeCompare : string -> string -> Z)
        (updateReadme : string -> string -> string -> exn + string)
        (pd : PortsSchema.t) (cd : option (list Category.t))
        (ud : UserstylesSchema.t) P C U cz (r : string) :
  PortsSchema.ports pd = Some P -> cd = Some C ->
  UserstylesSchema.userstyles ud = Some U ->
  categorized localeCompare (ports P U) = inr cz ->
  let pc := portContent (portListData C cz) in
  let sc := showcaseContent (PortsSchema.showcases pd) in
  let result := run (main localeCompare updateReadme pd cd ud) (Some r) in
  (forall e,
      updateReadme r pc "portlist" = inl e ->
      result
      = (inr tt,
         mkState (Some r) r
                 [ReadReadme; UpdateReadme "portlist";
                  ConsoleLog "Failed to update the README:" e;
                  WriteReadme r])) /\
  (In (UpdateReadme "showcase") (trace (snd result)) ->
   (exists r1, updateReadme r pc "portlist" = inr r1) /\
   truthy sc = true) /\
  (PortsSchema.showcases pd = None \/ PortsSchema.showcases pd = Some [] ->
   ~ In (UpdateReadme "showcase") (trace (snd result))) /\
  (forall r1,
      updateReadme r pc "portlist" = inr r1 -> truthy sc = true ->
      In (UpdateReadme "showcase") (trace (snd result))).
Proof.
  intros HP HC HU Hcz pc sc result.
  assert (Hrun := main_splices localeCompare updateReadme pd cd ud P C U cz r
                               HP HC HU Hcz).
  cbv zeta in Hrun. fold pc sc result in Hrun.
  assert (Hneeds :
            In (UpdateReadme "showcase") (trace (snd result)) ->
            (exists r1, updateReadme r pc "portlist" = inr r1) /\
            truthy sc = true).
  { rewrite Hrun. destruct (updateReadme r pc "portlist") as [e|r1].
    - simpl. intros [H|[H|[H|[H|[]]]]]; discriminate.
    - destruct (truthy sc); [eauto|].
      simpl. intros [H|[H|[H|[]]]]; discriminate. }
  split; [|split; [|split]].
  - intros e He. rewrite Hrun, He. reflexivity.
  - exact Hneeds.
  - intros Hs Hin. apply showcaseContent_falsy in Hs. fold sc in Hs.
    destruct (Hneeds Hin) as [_ Ht]. congruence.
  - intros r1 Hr1 Ht. rewrite Hrun, Hr1, Ht.
    destruct (updateReadme r1 (template sc) "showcase"); simpl; auto.
Qed.

(** * The claims on concrete inputs *)

Section Concrete.

Import Example.

#[local] Ltac distinct_keys :=
  repeat constructor; simpl; intuition discriminate.

(** C1, against the claim as stated: the rows of a port that has a
    [readme] and a [platform] have them too. *)
Lemma rows_keep_readme_and_platform :
  let m3 := tag_port p3 in
  let u := Some "https://github.com/catppuccin/p3" in
  categorized compare_code_units (ports [("p3", p3)] [])
  = inr [("a", [with_url m3 u; with_url_name m3 u "Mail App";
                with_url_name m3 u "Mail Web"])] /\
  readme (with_url m3 u) = Some (JObj [("usage", JStr "install")]) /\
  platform (with_url m3 u) = Some (JArr [JStr "linux"]) /\
  readme (with_url_name m3 u "Mail App")
  = Some (JObj [("usage", JStr "install")]) /\
  platform (with_url_name m3 u "Mail App") = Some (JArr [JStr "linux"]).
Proof. repeat split. Qed.

(** The row of the variant [Mail Web] of [p3] has the readme and the
    platform of [p3]. *)
Lemma rows_carry_every_field_of_their_entry_witness :
  let m3 := tag_port p3 in
  let row := with_url_name m3 (Some "https://github.com/catppuccin/p3")
                           "Mail Web" in
  exists slug p,
    In (slug, p) (Object_entries (ports [("p3", p3)] [])) /\
    readme row = readme p /\ platform row = platform p /\
    url row = resolve_url slug p.
Proof.
  intros m3 row.
  destruct (rows_carry_every_field_of_their_entry
              compare_code_units (ports [("p3", p3)] [])
              [("a", [with_url m3 (Some "https://github.com/catppuccin/p3");
                      with_url_name m3
                        (Some "https://github.com/catppuccin/p3") "Mail App";
                      row])]
              "a" _ row eq_refl (or_introl eq_refl)
              (or_intror (or_intror (or_introl eq_refl))))
    as [(slug & p & Hin & _ & Hreadme & Hplatform & _ & _ & _ & _ & _
         & Hurl & _) _].
  exists slug, p. repeat split; assumption.
Defined.

(** C2, against the claim as stated: with no port at all the run is not
    aborted; the README is spliced and written. *)
Lemma empty_ports_collection_does_not_abort :
  run (main compare_code_units updateReadme_lines
            (PortsSchema.mk (Some []) None) (Some [])
            (UserstylesSchema.mk (Some [])))
      (Some "README")
  = (inr tt,
     mkState (Some ("README" ++ nl)) ("README" ++ nl)
             [ReadReadme; UpdateReadme "portlist";
              WriteReadme ("README" ++ nl)]).
Proof. reflexivity. Qed.

(** Without a ports collection the run throws at once. *)
Lemma absent_collection_aborts_empty_one_does_not_witness :
  run (main compare_code_units updateReadme_lines
            (PortsSchema.mk None None) categoriesData userstylesData)
      (Some "README")
  = (inl (Error "ports.yml is empty"), mkState (Some "README") "" []).
Proof.
  apply (proj1 (absent_collection_aborts_empty_one_does_not
                  compare_code_units updateReadme_lines
                  (PortsSchema.mk None None) categoriesData userstylesData
                  (Some "README"))).
  left. reflexivity.
Defined.

(** C3: the code on a port whose alias is the empty string.  The alias is
    set and is no known slug, so the validation announced on line 78
    should fail; but the test of line 79 takes the empty string for no
    alias, while line 89 takes it for the repository name: the grouping
    returns, the row gets the URL [https://github.com/catppuccin/], and
    the README is written. *)
Lemma empty_alias_is_not_checked :
  let pd := PortsSchema.mk (Some [("p5", p5)]) None in
  let merged := ports [("p5", p5)] [] in
  let row := with_url (tag_port p5) (Some "https://github.com/catppuccin/") in
  alias (tag_port p5) = Some "" /\
  ~ In "" (portSlugs merged) /\
  categorized compare_code_units merged = inr [("a", [row])] /\
  fst (run (main compare_code_units updateReadme_lines pd categoriesData
                 userstylesData) (Some "README")) = inr tt.
Proof.
  repeat split. simpl. intuition discriminate.
Qed.

(** The alias of [p4] names no slug: the run throws, naming [p4] and the
    alias, and the README is left alone. *)
Lemma dangling_alias_aborts_the_run_witness :
  let pd := PortsSchema.mk (Some [("p1", p1); ("p4", p4)]) None in
  let e := Error
             "port `p4` points to an alias `missing-slug` that doesn't exist"
  in
  run (main compare_code_units updateReadme_lines pd categoriesData
            userstylesData) (Some "README")
  = (inl e, mkState (Some "README") "" []).
Proof.
  intros pd e.
  destruct (dangling_alias_aborts_the_run
              compare_code_units updateReadme_lines pd categoriesData
              userstylesData (Some "README")
              [("p1", p1); ("p4", p4)] [Category.mk "a" "Alpha" "^"] []
              "p4" (tag_port p4) "missing-slug"
              eq_refl eq_refl eq_refl)
    as (l1 & slug' & p' & a' & l2 & _ & _ & _ & _ & _ & Hthrown & Hrun).
  - simpl. auto.
  - reflexivity.
  - discriminate.
  - simpl. intuition discriminate.
  - rewrite Hrun. do 2 f_equal.
    enough (H : categorized compare_code_units
                            (ports [("p1", p1); ("p4", p4)] [])
                = inl e) by congruence.
    reflexivity.
Defined.

(** C6, against the claim as stated: a url set to the empty string is not
    used; the port gets the repository of its slug. *)
Lemma empty_url_is_not_used :
  url (tag_port p6) = Some "" /\
  resolve_url "p6" (tag_port p6) = Some "https://github.com/catppuccin/p6" /\
  resolve_url "p6" (tag_port p6) <> url (tag_port p6).
Proof. repeat split. discriminate. Qed.

(** The three cases of the resolution on [p2], [p1] and [u2]. *)
Lemma resolve_url_cases_witness :
  resolve_url "p2" (tag_port p2) = Some "https://x" /\
  resolve_url "p1" (tag_port p1) = Some "https://github.com/catppuccin/p1" /\
  resolve_url "p2" (tag_userstyle u2)
  = Some "https://github.com/catppuccin/userstyles/tree/main/styles/p2".
Proof.
  split; [|split].
  - apply (proj1 (resolve_url_cases "p2" (tag_port p2)));
      [reflexivity|discriminate].
  - apply (proj1 (proj2 (resolve_url_cases "p1" (tag_port p1))));
      [left|]; reflexivity.
  - apply (proj2 (proj2 (resolve_url_cases "p2" (tag_userstyle u2))));
      [left|]; reflexivity.
Defined.

(** The buckets of three ports, one of them with two variants, are
    sorted. *)
Lemma buckets_sorted_after_every_entry_witness :
  exists acc,
    categorized compare_code_units
                (ports [("p1", p1); ("p2", p2); ("p3", p3)] []) = inr acc /\
    forall k bucket,
      In (k, bucket) (Object_entries acc) ->
      ordered (by_name compare_code_units) bucket.
Proof.
  apply (buckets_sorted_after_every_entry
           compare_code_units
           (ports [("p1", p1); ("p2", p2); ("p3", p3)] [])
           compare_code_units_total compare_code_units_trans).
  vm_compute. repeat constructor.
Defined.

(** [p3] has two variants: three rows are pushed to a bucket of one. *)
Lemma categorize_pushes_one_row_per_variant_plus_one_witness :
  length (pushed (tag_port p3) (resolve_url "p3" (tag_port p3))) = 3%nat /\
  exists acc' bucket,
    categorize compare_code_units ["p1"; "p3"]
               [("a", [with_url (tag_port p1)
                                (resolve_url "p1" (tag_port p1))])]
               "p3" (tag_port p3) = inr acc' /\
    obj_get acc' "a" = Some bucket /\
    length bucket = 4%nat.
Proof.
  destruct (categorize_pushes_one_row_per_variant_plus_one
              compare_code_units ["p1"; "p3"]
              [("a", [with_url (tag_port p1)
                               (resolve_url "p1" (tag_port p1))])]
              "p3" (tag_port p3) eq_refl)
    as (_ & Hlen & _ & _ & _ & acc' & bucket & Hacc & Hget & _ & _ & Hn & _).
  split; [exact Hlen|]. exists acc', bucket. auto.
Defined.

(** The userstyle [u2] takes the slug of the port [p2]; [p1] stays a
    port. *)
Lemma ports_userstyle_overwrites_port_witness :
  obj_get (ports [("p1", p1); ("p2", p2)] [("p2", u2)]) "p2"
  = Some (tag_userstyle u2) /\
  obj_get (ports [("p1", p1); ("p2", p2)] [("p2", u2)]) "p1"
  = Some (tag_port p1).
Proof.
  assert (H := ports_userstyle_overwrites_port
                 [("p1", p1); ("p2", p2)] [("p2", u2)]
                 ltac:(distinct_keys) ltac:(distinct_keys)).
  destruct H as (_ & Hget & _).
  split; [exact (Hget "p2")|exact (Hget "p1")].
Defined.

(** With an [updateReadme] that always throws the README is still
    written, as it was read. *)
Lemma README_written_whatever_the_splices_do_witness :
  exists events,
    run (main compare_code_units updateReadme_fails
              (PortsSchema.mk (Some [("p1", p1); ("p2", p2)])
                              (Some [showcase1]))
              categoriesData userstylesData)
        (Some "README")
    = (inr tt,
       mkState (Some "README") "README"
               (ReadReadme :: events ++ [WriteReadme "README"])).
Proof.
  destruct (README_written_whatever_the_splices_do
               compare_code_units updateReadme_fails
               (PortsSchema.mk (Some [("p1", p1); ("p2", p2)])
                               (Some [showcase1]))
               categoriesData userstylesData
               [("p1", p1); ("p2", p2)] [Category.mk "a" "Alpha" "^"] []
               [("a", [with_url (tag_port p2) (Some "https://x");
                       with_url (tag_port p1)
                         (Some "https://github.com/catppuccin/p1")])]
               "README" eq_refl eq_refl eq_refl eq_refl)
    as (events & Hrun & _).
  exists events. exact Hrun.
Defined.

(** With an [updateReadme] that always throws the showcase splice is not
    attempted although there is a showcase. *)
Lemma showcase_splice_needs_the_portlist_splice_witness :
  run (main compare_code_units updateReadme_fails
            (PortsSchema.mk (Some [("p1", p1); ("p2", p2)])
                            (Some [showcase1]))
            categoriesData userstylesData)
      (Some "README")
  = (inr tt,
     mkState (Some "README") "README"
             [ReadReadme; UpdateReadme "portlist";
              ConsoleLog "Failed to update the README:"
                         (Error "section not found: portlist");
              WriteReadme "README"]).
Proof.
  destruct (showcase_splice_needs_the_portlist_splice
               compare_code_units updateReadme_fails
               (PortsSchema.mk (Some [("p1", p1); ("p2", p2)])
                               (Some [showcase1]))
               categoriesData userstylesData
               [("p1", p1); ("p2", p2)] [Category.mk "a" "Alpha" "^"] []
               [("a", [with_url (tag_port p2) (Some "https://x");
                       with_url (tag_port p1)
                         (Some "https://github.com/catppuccin/p1")])]
               "README" eq_refl eq_refl eq_refl eq_refl)
    as (Hthrows & _).
  apply Hthrows. reflexivity.
Defined.

(** A category without a bucket leaves the port list as it is without
    that category. *)
Lemma portContent_blocks_in_declared_order_witness :
  let cz := [("a", [with_url (tag_port p1)
                             (Some "https://github.com/catppuccin/p1")])] in
  portContent
    (portListData [Category.mk "b" "Beta" "*"; Category.mk "a" "Alpha" "^"]
                  cz)
  = portContent (portListData [Category.mk "a" "Alpha" "^"] cz).
Proof.
  intros cz.
  apply (proj1 (proj2 (proj2 (portContent_blocks_in_declared_order
                                [Category.mk "b" "Beta" "*";
                                 Category.mk "a" "Alpha" "^"] cz)))
               [] (Category.mk "b" "Beta" "*") [Category.mk "a" "Alpha" "^"]
               eq_refl).
  left. reflexivity.
Defined.

(** The example of the specification: Beta is listed before Zeta, and
    Zeta gets the repository of its slug. *)
Example Beta_listed_before_Zeta :
  exists cz,
    categorized compare_code_units (ports [("p1", p1); ("p2", p2)] [])
    = inr cz /\
    portContent (portListData [Category.mk "a" "Alpha" "^"] cz)
    = "<details open>" ++ nl ++ "<summary>^ Alpha</summary>" ++ nl ++ nl
        ++ "- [Beta](https://x)" ++ nl
        ++ "- [Zeta](https://github.com/catppuccin/p1)" ++ nl ++ nl
        ++ "</details>".
Proof. eexists. split; reflexivity. Qed.

(** Array-index slugs are enumerated first, in numeric order, and a
    userstyle that takes the slug of a port takes its place too. *)
Example merged_enumeration_order :
  portSlugs (ports [("10", p1); ("p2", p2); ("p1", p1)]
                   [("9", u2); ("p2", u2)])
  = ["9"; "10"; "p2"; "p1"].
Proof. reflexivity. Qed.

End Concrete.

(** * Further properties *)

(** ** The known slugs (line 70) *)

Lemma keys_assign_all {A B : Type} (g : A -> B) (l : obj A) (acc : obj B) x :
  In x (Object_keys
          (fold_left (fun acc kv => obj_set acc (fst kv) (g (snd kv))) l acc))
  <-> In x (Object_keys l) \/ In x (Object_keys acc).
Proof.
  revert acc. induction l as [|[k a] l IH]; simpl; intros acc.
  - tauto.
  - rewrite IH, keys_obj_set. simpl. intuition (subst; auto).
Qed.

Lemma keys_ports P U x :
  In x (Object_keys (ports P U))
  <-> In x (Object_keys P) \/ In x (Object_keys U).
Proof.
  unfold ports, spread2, spread_into, label, Object_entries.
  rewrite (keys_assign_all (fun v => v)), (keys_assign_all (fun v => v)).
  rewrite !keys_assign_all. simpl. tauto.
Qed.

(** X1: the known slugs are the slugs of the two catalogues, each of them
    once; so a non-empty alias passes the check of line 79 exactly when
    it is the slug of a port or of a userstyle. *)
Theorem portSlugs_are_the_slugs_of_both_catalogues
        (P : obj Port.t) (U : obj Userstyle.t) :
  NoDup (portSlugs (ports P U)) /\
  (forall slug,
      In slug (portSlugs (ports P U))
      <-> In slug (Object_keys P) \/ In slug (Object_keys U)) /\
  (forall p a,
      alias p = Some a -> a <> "" ->
      (dangling_alias (portSlugs (ports P U)) p = false
       <-> In a (Object_keys P) \/ In a (Object_keys U))).
Proof.
  split; [|split].
  - apply (obj_ok_NoDup (ports P U)), obj_ok_spread2.
  - intros slug. apply keys_ports.
  - intros p a Ha Hne. unfold dangling_alias. rewrite Ha.
    apply truthy_Some in Hne. rewrite Hne. simpl andb.
    rewrite negb_false_iff.
    rewrite (includes_In (portSlugs (ports P U)) a).
    apply keys_ports.
Qed.

(** ** What the buckets hold (lines 72-120) *)

Lemma reduce_bucket_needs_entry localeCompare slugs l acc :
  reduce (fun acc kv => categorize localeCompare slugs acc (fst kv) (snd kv))
         l [] = inr acc ->
  forall k,
    Forall (fun kv => primary_key (snd kv) <> k) l -> obj_get acc k = None.
Proof.
  apply (reduce_invariant
           (fun acc kv =>
              categorize localeCompare slugs acc (fst kv) (snd kv))
           (fun done acc =>
              forall k,
                Forall (fun kv => primary_key (snd kv) <> k) done ->
                obj_get acc k = None)).
  - reflexivity.
  - intros done [slug p] acc0 acc1 Hinv Hstep k Hall. simpl in Hstep.
    pose proof (categorize_inr _ _ _ _ _ _ Hstep) as Hd.
    destruct (categorize_returns localeCompare slugs acc0 slug p Hd)
      as (acc' & Heq & _ & Hother & _).
    rewrite Heq in Hstep. injection Hstep as <-.
    apply Forall_app in Hall. destruct Hall as [Hdone Hx].
    inversion Hx as [|? ? Hne _]; subst. simpl in Hne.
    rewrite (Hother _ Hne). now apply Hinv.
Qed.

Lemma pushed_length p u : length (pushed p u) = row_count p.
Proof. unfold pushed, row_count. simpl. now rewrite length_map. Qed.

Lemma rows_for_length k l :
  length (rows_for k l)
  = list_sum (map (fun kv => row_count (snd kv))
                  (filter (fun kv => primary_key (snd kv) =? k) l)).
Proof.
  unfold rows_for.
  induction (filter (fun kv => primary_key (snd kv) =? k) l)
    as [|x xs IH]; cbn [flat_map map list_sum]; [reflexivity|].
  now rewrite length_app, pushed_length, IH.
Qed.

Lemma bucket_row_origin localeCompare merged acc k bucket row :
  categorized localeCompare merged = inr acc ->
  In (k, bucket) (Object_entries acc) -> In row bucket ->
  exists slug p,
    In (slug, p) (Object_entries merged) /\ primary_key p = k /\
    In row (pushed p (resolve_url slug p)).
Proof.
  intros Hacc Hk Hrow.
  destruct (reduce_buckets _ _ _ _ Hacc) as [Hok Hinv].
  apply (In_obj_get _ _ _ Hok) in Hk.
  destruct (Hinv k) as [Hperm _]. rewrite Hk in Hperm. simpl in Hperm.
  apply (Permutation_in _ Hperm) in Hrow. unfold rows_for in Hrow.
  apply in_flat_map in Hrow. destruct Hrow as ([slug p] & Hin & Hrow).
  apply filter_In in Hin. destruct Hin as [Hin Hkey]. simpl in *.
  apply String.eqb_eq in Hkey. eauto.
Qed.

(** X2: the grouping has a bucket for a key exactly when some entry has
    that key as its first category; a bucket is never empty, holds the
    rows of the entries of its key and no others, each as often as it
    was pushed, and has as many rows as these entries have names: one
    plus the number of its [supports] values for each. *)
Theorem buckets_hold_the_rows_of_their_entries
        (localeCompare : string -> string -> Z) (merged : obj MappedPort)
        (acc : obj (list MappedPort)) (k : string) :
  categorized localeCompare merged = inr acc ->
  (obj_get acc k = None
   <-> Forall (fun kv => primary_key (snd kv) <> k)
              (Object_entries merged)) /\
  (forall bucket,
      obj_get acc k = Some bucket ->
      bucket <> [] /\
      Permutation bucket (rows_for k (Object_entries merged)) /\
      length bucket
      = list_sum
          (map (fun kv => row_count (snd kv))
               (filter (fun kv => primary_key (snd kv) =? k)
                       (Object_entries merged)))).
Proof.
  intros Hacc.
  destruct (reduce_buckets _ _ _ _ Hacc) as [_ Hinv].
  destruct (Hinv k) as [Hperm Hnone].
  split.
  - split; [exact Hnone|].
    now apply (reduce_bucket_needs_entry _ _ _ _ Hacc).
  - intros bucket Hb. rewrite Hb in Hperm. simpl in Hperm.
    assert (Hlen : length bucket
                   = length (rows_for k (Object_entries merged)))
      by now apply Permutation_length.
    split; [|split].
    + intros ->.
      assert (Hno : ~ Forall (fun kv => primary_key (snd kv) <> k)
                             (Object_entries merged)).
      { intros Hall.
        rewrite (reduce_bucket_needs_entry _ _ _ _ Hacc k Hall) in Hb.
        discriminate. }
      apply Hno. apply Forall_forall. intros [slug p] Hin Hkey.
      simpl in Hkey.
      assert (Hrow : In (with_url p (resolve_url slug p))
                        (rows_for k (Object_entries merged))).
      { unfold rows_for. apply in_flat_map. exists (slug, p). split.
        - apply filter_In. split; [exact Hin|].
          simpl. now apply String.eqb_eq.
        - simpl. now left. }
      apply (Permutation_in _ (Permutation_sym Hperm)) in Hrow.
      exact Hrow.
    + exact Hperm.
    + rewrite Hlen. apply rows_for_length.
Qed.

Lemma resolve_url_nonempty slug p :
  exists u, resolve_url slug p = Some u /\ u <> "".
Proof.
  unfold resolve_url. destruct (truthy (url p)) eqn:Ht; simpl.
  - destruct (url p) as [u|]; [|discriminate].
    exists u. split; [reflexivity|]. now apply truthy_Some.
  - destruct (type p); eexists; (split; [reflexivity|discriminate]).
Qed.

(** X3: every row of every bucket has a url, and it is not the empty
    string; the list item of the row is [- [name](url)] with that url,
    never [undefined] and never an empty target. *)
Theorem rows_have_a_url
        (localeCompare : string -> string -> Z) (merged : obj MappedPort)
        (acc : obj (list MappedPort)) (k : string)
        (bucket : list MappedPort) (row : MappedPort) :
  categorized localeCompare merged = inr acc ->
  In (k, bucket) (Object_entries acc) ->
  In row bucket ->
  exists u,
    url row = Some u /\ u <> "" /\
    port_item row = "- [" ++ name row ++ "](" ++ u ++ ")".
Proof.
  intros Hacc Hk Hrow.
  destruct (bucket_row_origin _ _ _ _ _ _ Hacc Hk Hrow)
    as (slug & p & _ & _ & Hpushed).
  apply pushed_fields in Hpushed.
  destruct Hpushed as (_ & _ & _ & _ & _ & _ & _ & Hurl & _).
  destruct (resolve_url_nonempty slug p) as (u & Hu & Hne).
  exists u. rewrite Hurl, Hu. repeat split; [exact Hne|].
  unfold port_item. rewrite Hurl, Hu. reflexivity.
Qed.

(** ** Sorting after every entry and sorting once (line 115) *)

Section SortOnce.

Context {A : Type} (cmp : A -> A -> Z).

Hypothesis cmp_total : forall a b, (cmp a b <= 0 \/ cmp b a <= 0)%Z.
Hypothesis cmp_trans :
  forall a b c, (cmp a b <= 0 -> cmp b c <= 0 -> cmp a c <= 0)%Z.

Lemma sort_insert_swap x y t :
  (cmp y x <= 0)%Z -> (0 < cmp x y)%Z ->
  sort_insert cmp y (sort_insert cmp x t)
  = sort_insert cmp x (sort_insert cmp y t).
Proof.
  intros Hyx Hxy. induction t as [|z t IH]; simpl.
  - destruct (Z.leb_spec (cmp y x) 0); [|lia].
    destruct (Z.leb_spec (cmp x y) 0); [lia|]. reflexivity.
  - destruct (Z.leb_spec (cmp x z) 0) as [Hxz|Hxz];
      destruct (Z.leb_spec (cmp y z) 0) as [Hyz|Hyz]; simpl.
    + destruct (Z.leb_spec (cmp y x) 0); [|lia].
      destruct (Z.leb_spec (cmp x y) 0); [lia|].
      destruct (Z.leb_spec (cmp x z) 0); [|lia]. reflexivity.
    + exfalso. pose proof (cmp_trans y x z Hyx Hxz). lia.
    + destruct (Z.leb_spec (cmp y z) 0); [|lia].
      destruct (Z.leb_spec (cmp x y) 0); [lia|].
      destruct (Z.leb_spec (cmp x z) 0); [lia|]. reflexivity.
    + destruct (Z.leb_spec (cmp y z) 0); [lia|].
      destruct (Z.leb_spec (cmp x z) 0); [lia|]. now rewrite IH.
Qed.

Lemma fold_sort_insert acc x s :
  fold_right (sort_insert cmp) acc (sort_insert cmp x s)
  = sort_insert cmp x (fold_right (sort_insert cmp) acc s).
Proof.
  induction s as [|y s IH]; simpl; [reflexivity|].
  destruct (Z.leb_spec (cmp x y) 0) as [Hxy|Hxy]; simpl; [reflexivity|].
  rewrite IH. apply sort_insert_swap; [|exact Hxy].
  destruct (cmp_total x y); [lia|assumption].
Qed.

Lemma fold_Array_sort acc l :
  fold_right (sort_insert cmp) acc (Array_sort cmp l)
  = fold_right (sort_insert cmp) acc l.
Proof.
  induction l as [|x l IH]; simpl; [reflexivity|].
  now rewrite fold_sort_insert, IH.
Qed.

Lemma Array_sort_sorted_prefix l m :
  Array_sort cmp (Array_sort cmp l ++ m) = Array_sort cmp (l ++ m).
Proof.
  unfold Array_sort at 1 3. rewrite !fold_right_app.
  apply fold_Array_sort.
Qed.

End SortOnce.

Lemma reduce_sorted_once localeCompare slugs l acc :
  (forall a b, localeCompare a b <= 0 \/ localeCompare b a <= 0)%Z ->
  (forall a b c, localeCompare a b <= 0 -> localeCompare b c <= 0 ->
                 localeCompare a c <= 0)%Z ->
  reduce (fun acc kv => categorize localeCompare slugs acc (fst kv) (snd kv))
         l [] = inr acc ->
  forall k,
    match obj_get acc k with
    | Some bucket => bucket = Array_sort (by_name localeCompare) (rows_for k l)
    | None => rows_for k l = []
    end.
Proof.
  intros Htotal Htrans.
  apply (reduce_invariant
           (fun acc kv =>
              categorize localeCompare slugs acc (fst kv) (snd kv))
           (fun done acc =>
              forall k,
                match obj_get acc k with
                | Some bucket =>
                    bucket
                    = Array_sort (by_name localeCompare) (rows_for k done)
                | None => rows_for k done = []
                end)).
  - reflexivity.
  - intros done [slug p] acc0 acc1 Hinv Hstep k. simpl in Hstep.
    pose proof (categorize_inr _ _ _ _ _ _ Hstep) as Hd.
    destruct (categorize_returns localeCompare slugs acc0 slug p Hd)
      as (acc' & Heq & Hsame & Hother & _).
    rewrite Heq in Hstep. injection Hstep as <-.
    rewrite rows_for_snoc. simpl.
    destruct (String.eqb_spec (primary_key p) k) as [<-|Hne].
    + rewrite Hsame. specialize (Hinv (primary_key p)).
      destruct (obj_get acc0 (primary_key p)) as [old|]; simpl.
      * rewrite Hinv. apply Array_sort_sorted_prefix.
        -- intros a b. apply Htotal.
        -- intros a b c. apply Htrans.
      * now rewrite Hinv.
    + rewrite (Hother _ Hne), app_nil_r. apply Hinv.
Qed.

(** X4: with a consistent comparator, sorting the bucket after every
    entry gives what one sort at the end gives: the bucket of a key is
    the sorted array of the rows of the entries of that key, taken in
    the order of the entries. *)
Theorem bucket_is_one_sort_of_its_rows
        (localeCompare : string -> string -> Z) (merged : obj MappedPort)
        (acc : obj (list MappedPort)) (k : string)
        (bucket : list MappedPort) :
  (forall a b, localeCompare a b <= 0 \/ localeCompare b a <= 0)%Z ->
  (forall a b c, localeCompare a b <= 0 -> localeCompare b c <= 0 ->
                 localeCompare a c <= 0)%Z ->
  categorized localeCompare merged = inr acc ->
  obj_get acc k = Some bucket ->
  bucket
  = Array_sort (by_name localeCompare)
               (rows_for k (Object_entries merged)).
Proof.
  intros Htotal Htrans Hacc Hb.
  pose proof (reduce_sorted_once _ _ _ _ Htotal Htrans Hacc k) as H.
  now rewrite Hb in H.
Qed.

(** ** What the port list depends on (lines 72-142) *)

Section Views.

Context {A B : Type} (f : A -> B).

#[local] Abbreviation lifted :=
  (map (fun kv : string * list A => (fst kv, map f (snd kv)))).

Lemma lifted_get (acc : obj (list A)) k :
  obj_get (lifted acc) k = option_map (map f) (obj_get acc k).
Proof.
  induction acc as [|[k0 b0] acc IH]; simpl; [reflexivity|].
  destruct (k0 =? k); [reflexivity|exact IH].
Qed.

Lemma lifted_set_named (acc : obj (list A)) k b :
  lifted (set_named acc k b) = set_named (lifted acc) k (map f b).
Proof.
  induction acc as [|[k0 b0] acc IH]; simpl; [reflexivity|].
  destruct (k0 =? k); simpl; [reflexivity|now rewrite IH].
Qed.

Lemma lifted_set_index (acc : obj (list A)) k n b :
  lifted (set_index acc k n b) = set_index (lifted acc) k n (map f b).
Proof.
  induction acc as [|[k0 b0] acc IH]; simpl; [reflexivity|].
  destruct (k0 =? k); simpl; [reflexivity|].
  destruct (array_index k0) as [n0|]; [destruct (n <? n0)%N|]; simpl;
    try reflexivity.
  now rewrite IH.
Qed.

Lemma lifted_set (acc : obj (list A)) k b :
  lifted (obj_set acc k b) = obj_set (lifted acc) k (map f b).
Proof.
  unfold obj_set. destruct (array_index k).
  - apply lifted_set_index.
  - apply lifted_set_named.
Qed.

Lemma map_sort_insert (cmp : A -> A -> Z) (cmp' : B -> B -> Z) x l :
  (forall a b, cmp a b = cmp' (f a) (f b)) ->
  map f (sort_insert cmp x l) = sort_insert cmp' (f x) (map f l).
Proof.
  intros H. induction l as [|y l IH]; simpl; [reflexivity|].
  rewrite <- H. destruct (cmp x y <=? 0)%Z; simpl; [reflexivity|].
  now rewrite IH.
Qed.

Lemma map_Array_sort (cmp : A -> A -> Z) (cmp' : B -> B -> Z) l :
  (forall a b, cmp a b = cmp' (f a) (f b)) ->
  map f (Array_sort cmp l) = Array_sort cmp' (map f l).
Proof.
  intros H. induction l as [|x l IH]; simpl; [reflexivity|].
  now rewrite (map_sort_insert cmp cmp' _ _ H), IH.
Qed.

End Views.

#[local] Abbreviation views := (map (fun kv : string * list MappedPort =>
                                       (fst kv, map view (snd kv)))).

Lemma view_pushed p u :
  map view (pushed p u)
  = (name p, u)
      :: map (fun n => (n, u))
             (map Support.name (Object_values (nullish (supports p) []))).
Proof. unfold pushed. simpl. now rewrite !map_map. Qed.

Lemma same_listing_resolve_url slug p q :
  same_listing p q -> resolve_url slug p = resolve_url slug q.
Proof.
  intros (_ & Hu & Ha & Ht & _). unfold resolve_url.
  now rewrite Hu, Ha, Ht.
Qed.

(** The step on two accumulators that are read alike and two entries that
    are read alike: the same error, or accumulators read alike. *)
Lemma categorize_same_listing localeCompare slugs acc acc' slug p q :
  views acc = views acc' -> same_listing p q ->
  match categorize localeCompare slugs acc slug p,
        categorize localeCompare slugs acc' slug q with
  | inl e, inl e' => e = e'
  | inr a, inr a' => views a = views a'
  | _, _ => False
  end.
Proof.
  intros Hv Hpq.
  pose proof (same_listing_resolve_url slug _ _ Hpq) as Hurl.
  destruct Hpq as (Hn & Hu & Ha & Ht & Hk & Hs).
  unfold categorize, alias_error. rewrite <- Ha, <- Hk, <- Hurl.
  destruct (truthy (alias p) && negb (includes slugs (alias p)));
    [reflexivity|].
  cbv zeta.
  set (k := primary_key p). set (u := resolve_url slug p).
  assert (Hpushed : map view (pushed p u) = map view (pushed q u))
    by now rewrite !view_pushed, Hn, Hs.
  assert (Hget : forall a a' : obj (list MappedPort),
             views a = views a' ->
             map view (nullish (obj_get a k) [])
             = map view (nullish (obj_get a' k) [])).
  { intros a a' H.
    pose proof (lifted_get view a k) as H1.
    pose proof (lifted_get view a' k) as H2.
    rewrite H in H1. rewrite H1 in H2.
    destruct (obj_get a k), (obj_get a' k); simpl in *; congruence. }
  set (a0 := match obj_get acc k with Some _ => _ | None => _ end).
  set (a0' := match obj_get acc' k with Some _ => _ | None => _ end).
  assert (H0 : views a0 = views a0').
  { subst a0 a0'.
    pose proof (lifted_get view acc k) as H1.
    pose proof (lifted_get view acc' k) as H2.
    rewrite Hv in H1. rewrite H1 in H2.
    destruct (obj_get acc k), (obj_get acc' k); simpl in H2;
      try discriminate; [exact Hv|].
    now rewrite !(lifted_set view), Hv. }
  assert (H1 : views (obj_set a0 k (nullish (obj_get a0 k) []
                                      ++ pushed p u)%list)
               = views (obj_set a0' k (nullish (obj_get a0' k) []
                                         ++ pushed q u)%list)).
  { rewrite !(lifted_set view), !map_app, H0, (Hget _ _ H0), Hpushed.
    reflexivity. }
  rewrite (lifted_set view (obj_set a0 k _)),
    (lifted_set view (obj_set a0' k _)), H1.
  rewrite !(map_Array_sort view (by_name localeCompare)
              (fun a b => localeCompare (fst a) (fst b)))
    by reflexivity.
  now rewrite (Hget _ _ H1).
Qed.

Lemma reduce_same_listing localeCompare slugs E E' acc acc' :
  same_listings E E' -> views acc = views acc' ->
  match reduce (fun acc kv =>
                  categorize localeCompare slugs acc (fst kv) (snd kv))
               E acc,
        reduce (fun acc kv =>
                  categorize localeCompare slugs acc (fst kv) (snd kv))
               E' acc' with
  | inl e, inl e' => e = e'
  | inr a, inr a' => views a = views a'
  | _, _ => False
  end.
Proof.
  intros H. revert acc acc'.
  induction H as [|[slug p] [slug' q] E E' [Hslug Hpq] _ IH];
    simpl; intros acc acc' Hv.
  - exact Hv.
  - simpl in Hslug, Hpq. subst slug'.
    pose proof (categorize_same_listing localeCompare slugs acc acc' slug
                                        p q Hv Hpq) as Hstep.
    destruct (categorize localeCompare slugs acc slug p),
      (categorize localeCompare slugs acc' slug q);
      try contradiction; [exact Hstep|now apply IH].
Qed.

Lemma same_listings_slugs E E' :
  same_listings E E' -> portSlugs E = portSlugs E'.
Proof.
  unfold portSlugs, Object_entries.
  induction 1 as [|x y E E' [Hk _] _ IH]; simpl; [reflexivity|].
  now rewrite Hk, IH.
Qed.

Lemma port_item_view row row' :
  view row = view row' -> port_item row = port_item row'.
Proof.
  unfold view, port_item. intros [= Hn Hu]. now rewrite Hn, Hu.
Qed.

Lemma map_port_item_view b b' :
  map view b = map view b' -> map port_item b = map port_item b'.
Proof.
  revert b'. induction b as [|x b IH]; intros [|y b']; simpl;
    try discriminate; [reflexivity|].
  intros [= Hn Hu Hrest]. f_equal.
  - apply port_item_view. unfold view. now rewrite Hn, Hu.
  - now apply IH.
Qed.

Lemma portContent_views C cz cz' :
  views cz = views cz' ->
  portContent (portListData C cz) = portContent (portListData C cz').
Proof.
  intros Hv. unfold portContent. f_equal.
  induction C as [|c C IH]; simpl; [reflexivity|].
  assert (Hb : map view (nullish (obj_get cz (Category.key c)) [])
               = map view (nullish (obj_get cz' (Category.key c)) [])).
  { pose proof (lifted_get view cz (Category.key c)) as H1.
    pose proof (lifted_get view cz' (Category.key c)) as H2.
    rewrite Hv in H1. rewrite H1 in H2.
    destruct (obj_get cz (Category.key c)),
      (obj_get cz' (Category.key c)); simpl in *; congruence. }
  assert (Hlen : length (nullish (obj_get cz (Category.key c)) [])
                 = length (nullish (obj_get cz' (Category.key c)) []))
    by (rewrite <- (length_map view), Hb; apply length_map).
  rewrite Hlen.
  destruct (negb (length (nullish (obj_get cz' (Category.key c)) []) =? 0)%nat);
    simpl; [|exact IH].
  rewrite IH. f_equal. unfold details. simpl.
  now rewrite (map_port_item_view _ _ Hb).
Qed.

(** X5: the run reads of an entry only its name, url, alias, type, first
    category and the names of its [supports] values.  Two inputs whose
    merged catalogues have the same slugs in the same order and agree on
    these, with the same categories and showcases, give the same run:
    the same error or the same README written.  So the [readme], the
    [platform], the other properties and the categories after the first
    never show in the README. *)
Theorem run_reads_only_the_listing
        (localeCompare : string -> string -> Z)
        (updateReadme : string -> string -> string -> exn + string)
        (pd pd' : PortsSchema.t) (cd : option (list Category.t))
        (ud ud' : UserstylesSchema.t) (file : option string) P P' U U' :
  PortsSchema.ports pd = Some P -> PortsSchema.ports pd' = Some P' ->
  UserstylesSchema.userstyles ud = Some U ->
  UserstylesSchema.userstyles ud' = Some U' ->
  PortsSchema.showcases pd = PortsSchema.showcases pd' ->
  same_listings (ports P U) (ports P' U') ->
  run (main localeCompare updateReadme pd cd ud) file
  = run (main localeCompare updateReadme pd' cd ud') file.
Proof.
  intros HP HP' HU HU' Hsh Hsame.
  destruct cd as [C|].
  2:{ unfold run. rewrite !main_absent by auto. reflexivity. }
  assert (Hred : match categorized localeCompare (ports P U),
                       categorized localeCompare (ports P' U') with
                 | inl e, inl e' => e = e'
                 | inr a, inr a' => views a = views a'
                 | _, _ => False
                 end).
  { unfold categorized. rewrite <- (same_listings_slugs _ _ Hsame).
    now apply reduce_same_listing. }
  destruct (categorized localeCompare (ports P U)) as [e|cz] eqn:Hcz;
    destruct (categorized localeCompare (ports P' U')) as [e'|cz'] eqn:Hcz';
    try contradiction.
  - subst e'. unfold run.
    rewrite (main_grouping_throws localeCompare updateReadme pd (Some C) ud
               P C U e _ HP eq_refl HU Hcz).
    rewrite (main_grouping_throws localeCompare updateReadme pd' (Some C) ud'
               P' C U' e _ HP' eq_refl HU' Hcz').
    reflexivity.
  - destruct file as [r|].
    + rewrite (main_splices localeCompare updateReadme pd (Some C) ud
                 P C U cz r HP eq_refl HU Hcz).
      rewrite (main_splices localeCompare updateReadme pd' (Some C) ud'
                 P' C U' cz' r HP' eq_refl HU' Hcz').
      cbv zeta. rewrite Hsh, (portContent_views C cz cz' Hred).
      reflexivity.
    + rewrite (main_unreadable localeCompare updateReadme pd (Some C) ud
                 P C U cz HP eq_refl HU Hcz).
      rewrite (main_unreadable localeCompare updateReadme pd' (Some C) ud'
                 P' C U' cz' HP' eq_refl HU' Hcz').
      reflexivity.
Qed.

(** ** Entries the port list leaves out (lines 76 and 122-133) *)

(** X6: an entry whose first category is the key of no declared category
    is grouped without error and changes nothing in the port list: its
    rows go to a bucket that the renderer never looks up. *)
Theorem undeclared_category_is_left_out
        (localeCompare : string -> string -> Z) (portSlugs : list string)
        (acc acc' : obj (list MappedPort)) (slug : string) (p : MappedPort)
        (categoriesData : list Category.t) :
  categorize localeCompare portSlugs acc slug p = inr acc' ->
  ~ In (primary_key p) (map Category.key categoriesData) ->
  (exists bucket,
      obj_get acc' (primary_key p) = Some bucket /\
      In (with_url p (resolve_url slug p)) bucket) /\
  portContent (portListData categoriesData acc')
  = portContent (portListData categoriesData acc).
Proof.
  intros Hstep Hnot.
  pose proof (categorize_inr _ _ _ _ _ _ Hstep) as Hd.
  destruct (categorize_returns localeCompare portSlugs acc slug p Hd)
    as (acc1 & Heq & Hsame & Hother & _).
  rewrite Heq in Hstep. injection Hstep as <-.
  split.
  - eexists. split; [exact Hsame|].
    apply (Permutation_in _ (Permutation_sym (Array_sort_perm _ _))).
    apply in_or_app. right. now left.
  - f_equal. unfold portListData. apply map_ext_in. intros c Hc.
    rewrite Hother; [reflexivity|].
    intros Heqk. apply Hnot. rewrite Heqk. now apply in_map.
Qed.

(** X7: an entry with an empty [categories] array raises no error; its
    first category is [undefined], and its rows go to the bucket of the
    key ["undefined"]. *)
Theorem no_category_goes_to_undefined
        (localeCompare : string -> string -> Z) (portSlugs : list string)
        (acc : obj (list MappedPort)) (slug : string) (p : MappedPort) :
  categories p = [] ->
  dangling_alias portSlugs p = false ->
  exists acc' bucket,
    categorize localeCompare portSlugs acc slug p = inr acc' /\
    obj_get acc' "undefined" = Some bucket /\
    In (with_url p (resolve_url slug p)) bucket /\
    forall k, k <> "undefined" -> obj_get acc' k = obj_get acc k.
Proof.
  intros Hc Hd.
  destruct (categorize_returns localeCompare portSlugs acc slug p Hd)
    as (acc1 & Heq & Hsame & Hother & _).
  assert (Hk : primary_key p = "undefined")
    by (unfold primary_key; now rewrite Hc).
  rewrite Hk in Hsame, Hother.
  exists acc1. eexists. split; [exact Heq|]. split; [exact Hsame|]. split.
  - apply (Permutation_in _ (Permutation_sym (Array_sort_perm _ _))).
    apply in_or_app. right. now left.
  - intros k Hne. apply Hother. congruence.
Qed.

(** ** The README that cannot be read (lines 129-130) *)

(** X8: the README is read outside the [try]: when it cannot be read,
    although the three collections are there and the grouping has
    returned, the run ends with the error of the read, and nothing is
    spliced, logged or written. *)
Theorem unreadable_README_is_fatal
        (localeCompare : string -> string -> Z)
        (updateReadme : string -> string -> string -> exn + string)
        (pd : PortsSchema.t) (cd : option (list Category.t))
        (ud : UserstylesSchema.t) P C U cz :
  PortsSchema.ports pd = Some P -> cd = Some C ->
  UserstylesSchema.userstyles ud = Some U ->
  categorized localeCompare (ports P U) = inr cz ->
  exists e,
    run (main localeCompare updateReadme pd cd ud) None
    = (inl e, mkState None "" [ReadReadme]).
Proof.
  intros HP HC HU Hcz. eexists.
  now apply (main_unreadable localeCompare updateReadme pd cd ud P C U cz).
Qed.

(** ** The order of the merged catalogue (lines 51-68) *)

Lemma set_named_fresh {V : Type} (o : obj V) k v :
  ~ In k (Object_keys o) -> set_named o k v = (o ++ [(k, v)])%list.
Proof.
  induction o as [|[k0 v0] o IH]; simpl; [reflexivity|]. intros Hnot.
  destruct (String.eqb_spec k0 k) as [->|Hne].
  - exfalso. apply Hnot. now left.
  - rewrite IH; [reflexivity|]. intros Hin. apply Hnot. now right.
Qed.

Lemma assign_all_fresh {A B : Type} (g : A -> B) (l : obj A) (acc : obj B) :
  Forall (fun k => array_index k = None) (Object_keys l) ->
  NoDup (Object_keys acc ++ Object_keys l) ->
  fold_left (fun acc kv => obj_set acc (fst kv) (g (snd kv))) l acc
  = (acc ++ map (fun kv => (fst kv, g (snd kv))) l)%list.
Proof.
  revert acc. induction l as [|[k a] l IH]; simpl; intros acc Hnamed Hnd.
  - now rewrite app_nil_r.
  - inversion Hnamed as [|? ? Hk Hl]; subst.
    assert (Hfresh : ~ In k (Object_keys acc)).
    { intros Hin. apply NoDup_remove_2 in Hnd. apply Hnd.
      apply in_or_app. now left. }
    unfold obj_set at 2. rewrite Hk, (set_named_fresh acc k _ Hfresh).
    rewrite IH; [now rewrite <- app_assoc|exact Hl|].
    unfold Object_keys in *. rewrite map_app. simpl.
    rewrite <- app_assoc. simpl.
    apply NoDup_Add with (a := k) (l := (map fst acc ++ map fst l)%list).
    + apply Add_app.
    + split.
      * now apply NoDup_remove_1 in Hnd.
      * now apply NoDup_remove_2 in Hnd.
Qed.

(** X9: when no slug is an array index and no slug occurs twice, in one
    catalogue or across the two, the merged catalogue enumerates the
    ports in their order and then the userstyles in theirs. *)
Theorem ports_then_userstyles
        (P : obj Port.t) (U : obj Userstyle.t) :
  Forall (fun slug => array_index slug = None)
         (Object_keys P ++ Object_keys U) ->
  NoDup (Object_keys P ++ Object_keys U) ->
  Object_entries (ports P U)
  = (map (fun kv => (fst kv, tag_port (snd kv))) P
       ++ map (fun kv => (fst kv, tag_userstyle (snd kv))) U)%list.
Proof.
  intros Hnamed Hnd.
  apply Forall_app in Hnamed. destruct Hnamed as [HnP HnU].
  assert (HP : label tag_port P
               = map (fun kv => (fst kv, tag_port (snd kv))) P).
  { unfold label, Object_entries. rewrite assign_all_fresh; auto.
    simpl. now apply NoDup_app_remove_r in Hnd. }
  assert (HU : label tag_userstyle U
               = map (fun kv => (fst kv, tag_userstyle (snd kv))) U).
  { unfold label, Object_entries. rewrite assign_all_fresh; auto.
    simpl. now apply NoDup_app_remove_l in Hnd. }
  assert (Hkeys : forall {A} (g : A -> MappedPort) (o : obj A),
             Object_keys (map (fun kv => (fst kv, g (snd kv))) o)
             = Object_keys o).
  { intros A g o. unfold Object_keys. rewrite map_map. reflexivity. }
  assert (Hspread : forall acc o : obj MappedPort,
             Forall (fun k => array_index k = None) (Object_keys o) ->
             NoDup (Object_keys acc ++ Object_keys o) ->
             spread_into acc o = (acc ++ o)%list).
  { intros acc o Hn Hd. unfold spread_into, Object_entries.
    rewrite (assign_all_fresh (fun v => v)) by assumption.
    f_equal. rewrite <- (map_id o) at 2. apply map_ext. now intros [k v]. }
  unfold Object_entries, ports, spread2. rewrite HP, HU.
  rewrite (Hspread []); simpl.
  - apply Hspread; rewrite !Hkeys; assumption.
  - now rewrite Hkeys.
  - rewrite Hkeys. now apply NoDup_app_remove_r in Hnd.
Qed.

(** ** The empty port list (lines 132-153) *)

Lemma details_nonempty data : details data <> "".
Proof. unfold details. discriminate. Qed.

Lemma listed_none C cz :
  filter (fun data : Category.t * list MappedPort =>
            negb (length (snd data) =? 0)%nat)
         (portListData C cz) = []
  <-> Forall (fun c => nullish (obj_get cz (Category.key c)) [] = []) C.
Proof.
  unfold portListData. induction C as [|c C IH]; simpl.
  - split; [constructor|reflexivity].
  - destruct (nullish (obj_get cz (Category.key c)) []) as [|row rows] eqn:E;
      simpl.
    + rewrite IH. split.
      * intros H. now constructor.
      * intros H. now inversion H.
    + split; [discriminate|].
      intros H. inversion H; subst. congruence.
Qed.

Lemma portContent_empty C cz :
  portContent (portListData C cz) = ""
  <-> Forall (fun c => nullish (obj_get cz (Category.key c)) [] = []) C.
Proof.
  rewrite <- listed_none. unfold portContent.
  destruct (filter _ (portListData C cz)) as [|d ds]; cbn [map].
  - split; reflexivity.
  - split; [|discriminate].
    intros H. exfalso. revert H. apply join_nonempty, details_nonempty.
Qed.

(** X10: the port list is the empty string exactly when no declared
    category has a row.  Its splice has no guard: in such a run the
    section of the port list is still spliced, with the empty string,
    before anything else is done to the README. *)
Theorem empty_port_list_is_still_spliced
        (localeCompare : string -> string -> Z)
        (updateReadme : string -> string -> string -> exn + string)
        (pd : PortsSchema.t) (cd : option (list Category.t))
        (ud : UserstylesSchema.t) P C U cz (r : string) :
  PortsSchema.ports pd = Some P -> cd = Some C ->
  UserstylesSchema.userstyles ud = Some U ->
  categorized localeCompare (ports P U) = inr cz ->
  let sc := showcaseContent (PortsSchema.showcases pd) in
  (portContent (portListData C cz) = ""
   <-> Forall (fun c => nullish (obj_get cz (Category.key c)) [] = []) C) /\
  (Forall (fun c => nullish (obj_get cz (Category.key c)) [] = []) C ->
   exists events,
     run (main localeCompare updateReadme pd cd ud) (Some r)
     = (inr tt,
        mkState (Some (spliced updateReadme r "" sc))
                (spliced updateReadme r "" sc)
                (ReadReadme :: UpdateReadme "portlist" :: events))).
Proof.
  intros HP HC HU Hcz sc. split; [apply portContent_empty|].
  intros Hall. apply portContent_empty in Hall.
  rewrite (main_splices localeCompare updateReadme pd cd ud P C U cz r
                        HP HC HU Hcz).
  cbv zeta. rewrite Hall. fold sc. unfold spliced.
  destruct (updateReadme r "" "portlist") as [e|r1].
  - eexists. reflexivity.
  - destruct (truthy sc).
    + destruct (updateReadme r1 (template sc) "showcase");
        eexists; reflexivity.
    + eexists. reflexivity.
Qed.

(** ** Why the grouping throws (lines 79-83) *)

Lemma In_set_named {V : Type} (o : obj V) k v k' v' :
  In (k', v') (set_named o k v) -> (k', v') = (k, v) \/ In (k', v') o.
Proof.
  induction o as [|[k0 v0] o IH]; simpl.
  - intuition.
  - destruct (k0 =? k); simpl; intuition.
Qed.

Lemma In_set_index {V : Type} (o : obj V) k n v k' v' :
  In (k', v') (set_index o k n v) -> (k', v') = (k, v) \/ In (k', v') o.
Proof.
  induction o as [|[k0 v0] o IH]; simpl.
  - intuition.
  - destruct (k0 =? k); simpl; [intuition|].
    destruct (array_index k0) as [n0|]; [destruct (n <? n0)%N|]; simpl;
      intuition.
Qed.

Lemma In_obj_set {V : Type} (o : obj V) k v k' v' :
  In (k', v') (obj_set o k v) -> (k', v') = (k, v) \/ In (k', v') o.
Proof.
  unfold obj_set. destruct (array_index k).
  - apply In_set_index.
  - apply In_set_named.
Qed.

Lemma In_assign_all {A B : Type} (g : A -> B) (l : obj A) (acc : obj B) k b :
  In (k, b)
     (fold_left (fun acc kv => obj_set acc (fst kv) (g (snd kv))) l acc) ->
  (exists a, In (k, a) l /\ b = g a) \/ In (k, b) acc.
Proof.
  revert acc. induction l as [|[k0 a0] l IH]; simpl; intros acc H.
  - now right.
  - destruct (IH _ H) as [(a & Hin & ->)|Hin].
    + left. eauto.
    + apply In_obj_set in Hin. destruct Hin as [[= -> ->]|Hin].
      * left. eauto.
      * now right.
Qed.

Lemma In_ports P U slug m :
  In (slug, m) (Object_entries (ports P U)) ->
  (exists p, In (slug, p) P /\ m = tag_port p) \/
  (exists u, In (slug, u) U /\ m = tag_userstyle u).
Proof.
  unfold Object_entries, ports, spread2, spread_into, Object_entries.
  intros H.
  apply (In_assign_all (fun v => v)) in H.
  destruct H as [(m' & Hin & ->)|H].
  - right. unfold label in Hin. apply In_assign_all in Hin.
    destruct Hin as [(u & Hin & ->)|[]]. eauto.
  - apply (In_assign_all (fun v => v)) in H.
    destruct H as [(m' & Hin & ->)|[]].
    left. unfold label in Hin. apply In_assign_all in Hin.
    destruct Hin as [(p & Hin & ->)|[]]. eauto.
Qed.

Lemma reduce_inl_dangling localeCompare slugs l acc0 e :
  reduce (fun acc kv => categorize localeCompare slugs acc (fst kv) (snd kv))
         l acc0 = inl e ->
  exists slug p,
    In (slug, p) l /\ dangling_alias slugs p = true /\
    e = alias_error slug p.
Proof.
  revert acc0. induction l as [|[slug p] l IH]; simpl; [discriminate|].
  intros acc0 H. destruct (dangling_alias slugs p) eqn:Hd.
  - rewrite (categorize_throws localeCompare _ acc0 slug _ Hd) in H.
    injection H as <-. exists slug, p. repeat split; auto.
  - destruct (categorize_returns localeCompare slugs acc0 slug p Hd)
      as (acc1 & Heq & _). rewrite Heq in H.
    destruct (IH _ H) as (slug' & p' & Hin & Hd' & ->).
    exists slug', p'. repeat split; auto.
Qed.

(** X11: the grouping throws for one reason only: a port, never a
    userstyle, has a non-empty alias that is the slug of no port and of
    no userstyle; the message quotes the slug and the alias of that
    port.  Without ports the grouping always returns. *)
Theorem grouping_throws_only_for_a_port_alias
        (localeCompare : string -> string -> Z)
        (P : obj Port.t) (U : obj Userstyle.t) :
  (forall e,
      categorized localeCompare (ports P U) = inl e ->
      exists slug p a,
        In (slug, p) (Object_entries P) /\
        Port.alias p = Some a /\ a <> "" /\
        ~ In a (Object_keys P) /\ ~ In a (Object_keys U) /\
        e = Error ("port `" ++ slug ++ "` points to an alias `" ++ a
                     ++ "` that doesn't exist")) /\
  (P = [] -> exists cz, categorized localeCompare (ports P U) = inr cz).
Proof.
  assert (Hthrows : forall e,
             categorized localeCompare (ports P U) = inl e ->
             exists slug p a,
               In (slug, p) (Object_entries P) /\
               Port.alias p = Some a /\ a <> "" /\
               ~ In a (Object_keys P) /\ ~ In a (Object_keys U) /\
               e = Error ("port `" ++ slug ++ "` points to an alias `" ++ a
                            ++ "` that doesn't exist")).
  { intros e He. apply reduce_inl_dangling in He.
    destruct He as (slug & m & Hin & Hd & ->).
    unfold dangling_alias in Hd. apply andb_true_iff in Hd.
    destruct Hd as [Ht Hi].
    apply In_ports in Hin.
    destruct Hin as [(p & Hin & ->)|(u & _ & ->)]; [|discriminate].
    cbn [alias tag_port] in Ht, Hi. unfold alias_error. cbn [alias tag_port].
    destruct (Port.alias p) as [a|] eqn:Ha; [|discriminate].
    exists slug, p, a.
    assert (Hunknown : ~ In a (portSlugs (ports P U))).
    { intros Hin'. apply includes_In in Hin'.
      rewrite Hin' in Hi. discriminate. }
    repeat split; auto.
    - now apply truthy_Some.
    - intros HaP. apply Hunknown, keys_ports. now left.
    - intros HaU. apply Hunknown, keys_ports. now right. }
  split; [exact Hthrows|].
  intros ->. destruct (categorized localeCompare (ports [] U)) as [e|cz] eqn:E.
  - destruct (Hthrows e eq_refl) as (slug & p & a & [] & _).
  - eauto.
Qed.

(** * The further properties on concrete inputs *)

Section Samples.

Import Example Sample.

#[local] Ltac no_repeat :=
  repeat constructor; simpl; intuition discriminate.

(** The alias of [mirror] is the slug of the userstyle [web]: it passes
    the check. *)
Lemma portSlugs_are_the_slugs_of_both_catalogues_witness :
  dangling_alias (portSlugs (ports [("mirror", mirror)] [("web", web)]))
                 (tag_port mirror) = false.
Proof.
  apply (proj2 (proj2 (portSlugs_are_the_slugs_of_both_catalogues
                         [("mirror", mirror)] [("web", web)]))
               (tag_port mirror) "web" eq_refl).
  - discriminate.
  - right. now left.
Defined.

(** The bucket of [p3] has the three rows of [p3]. *)
Lemma buckets_hold_the_rows_of_their_entries_witness :
  let m3 := tag_port p3 in
  let u := Some "https://github.com/catppuccin/p3" in
  let bucket := [with_url m3 u; with_url_name m3 u "Mail App";
                 with_url_name m3 u "Mail Web"] in
  bucket <> [] /\
  Permutation bucket
              (rows_for "a" (Object_entries (ports [("p3", p3)] []))) /\
  length bucket = 3%nat.
Proof.
  intros m3 u bucket.
  apply (proj2 (buckets_hold_the_rows_of_their_entries
                  compare_code_units (ports [("p3", p3)] [])
                  [("a", bucket)] "a" eq_refl)
               bucket eq_refl).
Defined.

(** The row of the variant [Mail App] has the url of [p3]. *)
Lemma rows_have_a_url_witness :
  let m3 := tag_port p3 in
  let u := Some "https://github.com/catppuccin/p3" in
  exists v,
    url (with_url_name m3 u "Mail App") = Some v /\ v <> "" /\
    port_item (with_url_name m3 u "Mail App")
    = "- [" ++ "Mail App" ++ "](" ++ v ++ ")".
Proof.
  intros m3 u.
  apply (rows_have_a_url
           compare_code_units (ports [("p3", p3)] [])
           [("a", [with_url m3 u; with_url_name m3 u "Mail App";
                   with_url_name m3 u "Mail Web"])]
           "a" _ (with_url_name m3 u "Mail App") eq_refl
           (or_introl eq_refl) (or_intror (or_introl eq_refl))).
Defined.

(** The bucket of [p3] is the sort of its rows as they were pushed. *)
Lemma bucket_is_one_sort_of_its_rows_witness :
  let m3 := tag_port p3 in
  let u := Some "https://github.com/catppuccin/p3" in
  [with_url m3 u; with_url_name m3 u "Mail App";
   with_url_name m3 u "Mail Web"]
  = Array_sort (by_name compare_code_units)
               [with_url m3 u; with_url_name m3 u "Mail Web";
                with_url_name m3 u "Mail App"].
Proof.
  intros m3 u.
  apply (bucket_is_one_sort_of_its_rows
           compare_code_units (ports [("p3", p3)] [])
           [("a", [with_url m3 u; with_url_name m3 u "Mail App";
                   with_url_name m3 u "Mail Web"])]
           "a" _ compare_code_units_total compare_code_units_trans
           eq_refl eq_refl).
Defined.

(** [web] and [web'] differ in what the run does not read: the runs are
    the same. *)
Lemma run_reads_only_the_listing_witness :
  run (main compare_code_units updateReadme_lines
            (PortsSchema.mk (Some []) None) categoriesData
            (UserstylesSchema.mk (Some [("web", web)])))
      (Some "README")
  = run (main compare_code_units updateReadme_lines
              (PortsSchema.mk (Some []) None) categoriesData
              (UserstylesSchema.mk (Some [("web", web')])))
        (Some "README").
Proof.
  apply (run_reads_only_the_listing
           compare_code_units updateReadme_lines
           (PortsSchema.mk (Some []) None) (PortsSchema.mk (Some []) None)
           categoriesData
           (UserstylesSchema.mk (Some [("web", web)]))
           (UserstylesSchema.mk (Some [("web", web')]))
           (Some "README") [] [] [("web", web)] [("web", web')]
           eq_refl eq_refl eq_refl eq_refl eq_refl).
  repeat constructor.
Defined.

(** [p1] is filed under [a]; with [b] as the only declared category the
    port list stays empty. *)
Lemma undeclared_category_is_left_out_witness :
  let row := with_url (tag_port p1)
                      (Some "https://github.com/catppuccin/p1") in
  portContent (portListData [Category.mk "b" "Beta" "*"] [("a", [row])])
  = portContent (portListData [Category.mk "b" "Beta" "*"] []).
Proof.
  intros row.
  apply (proj2 (undeclared_category_is_left_out
                  compare_code_units ["p1"] [] [("a", [row])] "p1"
                  (tag_port p1) [Category.mk "b" "Beta" "*"] eq_refl
                  ltac:(simpl; intuition discriminate))).
Defined.

(** [stray] has no category: it is filed under ["undefined"]. *)
Lemma no_category_goes_to_undefined_witness :
  exists acc' bucket,
    categorize compare_code_units ["stray"] [] "stray" (tag_port stray)
    = inr acc' /\
    obj_get acc' "undefined" = Some bucket /\
    In (with_url (tag_port stray)
                 (resolve_url "stray" (tag_port stray))) bucket.
Proof.
  destruct (no_category_goes_to_undefined
              compare_code_units ["stray"] [] "stray" (tag_port stray)
              eq_refl eq_refl)
    as (acc' & bucket & Hacc & Hget & Hin & _).
  exists acc', bucket. auto.
Defined.

(** Without a README the run of the example ends after the read. *)
Lemma unreadable_README_is_fatal_witness :
  exists e,
    run (main compare_code_units updateReadme_lines portsData
              categoriesData userstylesData) None
    = (inl e, mkState None "" [ReadReadme]).
Proof.
  apply (unreadable_README_is_fatal
           compare_code_units updateReadme_lines portsData
           categoriesData userstylesData
           [("p1", p1); ("p2", p2)] [Category.mk "a" "Alpha" "^"] []
           [("a", [with_url (tag_port p2) (Some "https://x");
                   with_url (tag_port p1)
                     (Some "https://github.com/catppuccin/p1")])]
           eq_refl eq_refl eq_refl eq_refl).
Defined.

(** Two ports and a userstyle with three different names as slugs. *)
Lemma ports_then_userstyles_witness :
  Object_entries (ports [("p1", p1); ("p2", p2)] [("web", web)])
  = [("p1", tag_port p1); ("p2", tag_port p2); ("web", tag_userstyle web)].
Proof.
  apply (ports_then_userstyles [("p1", p1); ("p2", p2)] [("web", web)]).
  - repeat constructor.
  - no_repeat.
Defined.

(** With [b] as the only declared category the port list of the example
    is empty, and its section is spliced all the same. *)
Lemma empty_port_list_is_still_spliced_witness :
  exists events,
    run (main compare_code_units updateReadme_lines portsData
              (Some [Category.mk "b" "Beta" "*"]) userstylesData)
        (Some "README")
    = (inr tt,
       mkState (Some ("README" ++ nl)) ("README" ++ nl)
               (ReadReadme :: UpdateReadme "portlist" :: events)).
Proof.
  apply (proj2 (empty_port_list_is_still_spliced
                  compare_code_units updateReadme_lines portsData
                  (Some [Category.mk "b" "Beta" "*"]) userstylesData
                  [("p1", p1); ("p2", p2)] [Category.mk "b" "Beta" "*"] []
                  [("a", [with_url (tag_port p2) (Some "https://x");
                          with_url (tag_port p1)
                            (Some "https://github.com/catppuccin/p1")])]
                  "README" eq_refl eq_refl eq_refl eq_refl)).
  repeat constructor.
Defined.

(** The grouping of [p4] throws: [p4] is the port with the unknown
    alias. *)
Lemma grouping_throws_only_for_a_port_alias_witness :
  exists slug p a,
    In (slug, p) (Object_entries [("p1", p1); ("p4", p4)]) /\
    Port.alias p = Some a /\ a <> "" /\
    Error "port `p4` points to an alias `missing-slug` that doesn't exist"
    = Error ("port `" ++ slug ++ "` points to an alias `" ++ a
               ++ "` that doesn't exist").
Proof.
  destruct (proj1 (grouping_throws_only_for_a_port_alias
                     compare_code_units [("p1", p1); ("p4", p4)] [])
                  _ eq_refl)
    as (slug & p & a & Hin & Ha & Hne & _ & _ & He).
  exists slug, p, a. auto.
Defined.

End Samples.
